(** * Sketch_gen: caption preparation scripts

    A shallow embedding of [clean_and_prepare_captions.py],
    [process_all_captions.py] and [caption_generator_finetuned.py], the three
    scripts under [src/] that produce files.  ([validate_captions.py] only
    loads the CSV file through pandas and prints statistics.)

    Python [str] values are lists of Unicode code points, file contents are
    lists of bytes, the file system is an explicit state that every I/O
    operation transforms, and a raised exception is a value of [outcome].
    What belongs to the interpreter or to a library and not to the repository
    is a parameter: [str.upper], the bytes pandas writes, the captioning
    model. *)

From Stdlib Require Import Strings.String Strings.Ascii Strings.Byte List NArith ZArith Bool Arith Lia.
Import ListNotations.
Local Open Scope N_scope.

(* ================================================================== *)
(** * Part I: the programs *)
(* ================================================================== *)

(** ** Text *)

Definition char := N.
Definition str := list char.

(** ASCII literals of the source, as code points. *)
Definition lit (s : string) : str :=
  List.map N_of_ascii (list_ascii_of_string s).

Definition str_eqb (a b : str) : bool :=
  if list_eq_dec N.eq_dec a b then true else false.

Definition in_range (lo hi c : char) : bool := (lo <=? c) && (c <=? hi).

(** [str.isspace] of a single character; [\s] of the [re] module on [str]
    patterns and the argument-less [split] and [strip] use the same table. *)
Definition isspace (c : char) : bool :=
  in_range 9 13 c || in_range 28 32 c || (c =? 133) || (c =? 160)
  || (c =? 5760) || in_range 8192 8202 c || (c =? 8232) || (c =? 8233)
  || (c =? 8239) || (c =? 8287) || (c =? 12288).

Definition is_ascii_lower (c : char) : bool := in_range 97 122 c.
Definition is_ascii_upper (c : char) : bool := in_range 65 90 c.

Definition ascii_lower (c : char) : char :=
  if is_ascii_upper c then c + 32 else c.

(** [str.upper] restricted to ASCII input: the instance used wherever a
    caption is evaluated on ASCII text. *)
Definition upper_ascii (c : char) : str :=
  if is_ascii_lower c then [c - 32] else [c].

(** *** Slices and searches *)

Fixpoint starts_with (p s : str) : bool :=
  match p, s with
  | [], _ => true
  | _ :: _, [] => false
  | a :: p', b :: s' => (a =? b) && starts_with p' s'
  end.

Definition ends_with (p s : str) : bool := starts_with (rev p) (rev s).

Fixpoint drop_while (p : char -> bool) (s : str) : str :=
  match s with
  | [] => []
  | c :: s' => if p c then drop_while p s' else s
  end.

Definition lstrip_by (p : char -> bool) (s : str) : str := drop_while p s.
Definition rstrip_by (p : char -> bool) (s : str) : str :=
  rev (drop_while p (rev s)).
Definition strip_by (p : char -> bool) (s : str) : str :=
  rstrip_by p (lstrip_by p s).

Definition in_set (cs : str) (c : char) : bool := existsb (N.eqb c) cs.

(** [s.strip()], [s.strip(chars)], [s.rstrip(chars)]. *)
Definition strip (s : str) : str := strip_by isspace s.
Definition strip_chars (cs : str) (s : str) : str := strip_by (in_set cs) s.
Definition rstrip_chars (cs : str) (s : str) : str := rstrip_by (in_set cs) s.

(** [s.split()]: maximal runs of non-whitespace characters.  [cur] is the
    word being read, last character first. *)
Fixpoint split_aux (cur : str) (s : str) : list str :=
  match s with
  | [] => match cur with [] => [] | _ => [rev cur] end
  | c :: s' =>
      if isspace c then
        match cur with
        | [] => split_aux [] s'
        | _ => rev cur :: split_aux [] s'
        end
      else split_aux (c :: cur) s'
  end.

Definition split (s : str) : list str := split_aux [] s.

(** [sep.join(ws)]. *)
Fixpoint join (sep : str) (ws : list str) : str :=
  match ws with
  | [] => []
  | [w] => w
  | w :: ws' => w ++ sep ++ join sep ws'
  end.

(** [s.replace(old, new)] for a non-empty [old]: occurrences are taken from
    the left and do not overlap.  [skip] counts the characters of the
    occurrence just replaced that are still to be passed over. *)
Fixpoint replace_from (old new : str) (skip : nat) (s : str) : str :=
  match s with
  | [] => []
  | c :: s' =>
      match skip with
      | S n => replace_from old new n s'
      | O =>
          if starts_with old s
          then new ++ replace_from old new (Nat.pred (length old)) s'
          else c :: replace_from old new 0 s'
      end
  end.

Definition replace (old new s : str) : str := replace_from old new 0 s.

(** *** Regular expressions

    The fragment of [re] the scripts use: literals (with or without
    [re.IGNORECASE]), the class [\s], alternation, and the greedy
    repetitions [*] and [+] of a single character class.  Matching is the
    backtracking search of [re]: alternatives in order, repetitions longest
    first. *)

Inductive regex : Type :=
| REps
| RChar (p : char -> bool)
| RSeq (r1 r2 : regex)
| RAlt (r1 r2 : regex)
| RStar (p : char -> bool).

Definition RPlus (p : char -> bool) : regex := RSeq (RChar p) (RStar p).

Fixpoint star_match (p : char -> bool) (k : str -> option str) (s : str)
  : option str :=
  match s with
  | [] => k []
  | c :: s' =>
      if p c then
        match star_match p k s' with
        | Some rest => Some rest
        | None => k s
        end
      else k s
  end.

(** [rmatch r k s]: match [r] at the start of [s], then the continuation
    [k] on what is left; the result is the text after the whole match. *)
Fixpoint rmatch (r : regex) (k : str -> option str) (s : str) : option str :=
  match r with
  | REps => k s
  | RChar p =>
      match s with
      | c :: s' => if p c then k s' else None
      | [] => None
      end
  | RSeq r1 r2 => rmatch r1 (rmatch r2 k) s
  | RAlt r1 r2 =>
      match rmatch r1 k s with
      | Some rest => Some rest
      | None => rmatch r2 k s
      end
  | RStar p => star_match p k s
  end.

(** A character of [s] matches the pattern letter [l] under
    [re.IGNORECASE] when its simple lower-case form is the lower-case form of
    [l], or one of the two case-equivalent letters the [re] compiler adds:
    dotless i for [i], long s for [s].  The capital I with dot (304) lowers
    to [i], the Kelvin sign (8490) to [k]. *)
Definition ieq (l c : char) : bool :=
  let l := ascii_lower l in
  (ascii_lower c =? l)
  || ((l =? 105) && ((c =? 304) || (c =? 305)))
  || ((l =? 115) && (c =? 383))
  || ((l =? 107) && (c =? 8490)).

Definition is_ascii_letter (c : char) : bool :=
  is_ascii_lower c || is_ascii_upper c.

(** A literal pattern text. *)
Fixpoint rlit (ignorecase : bool) (s : str) : regex :=
  match s with
  | [] => REps
  | l :: s' =>
      RSeq (RChar (if ignorecase && is_ascii_letter l then ieq l else N.eqb l))
           (rlit ignorecase s')
  end.

(** [(a|b|...)] over literal alternatives. *)
Fixpoint ralt (ignorecase : bool) (alts : list str) : regex :=
  match alts with
  | [] => RChar (fun _ => false)
  | [a] => rlit ignorecase a
  | a :: rest => RAlt (rlit ignorecase a) (ralt ignorecase rest)
  end.

(** [re.sub(r, repl, s)] for a pattern that needs at least one character
    (every pattern of the scripts does): scan from the left, replace each
    match, resume after it. *)
Fixpoint sub_from (r : regex) (repl : str) (skip : nat) (s : str) : str :=
  match s with
  | [] => []
  | c :: s' =>
      match skip with
      | S n => sub_from r repl n s'
      | O =>
          match rmatch r Some s with
          | Some rest =>
              match (length s - length rest)%nat with
              | O => c :: sub_from r repl 0 s'
              | S n => repl ++ sub_from r repl n s'
              end
          | None => c :: sub_from r repl 0 s'
          end
      end
  end.

Definition re_sub (r : regex) (repl : str) (s : str) : str :=
  sub_from r repl 0 s.

(** The pattern [\s+]. *)
Definition re_spaces : regex := RPlus isspace.

(** *** File names (pathlib) *)

Fixpoint take_while (p : char -> bool) (s : str) : str :=
  match s with
  | [] => []
  | c :: s' => if p c then c :: take_while p s' else []
  end.

Definition not_dot (c : char) : bool := negb (c =? 46).

(** [name.rfind('.')]: the text before and after the last dot. *)
Definition rsplit_dot (name : str) : option (str * str) :=
  match drop_while not_dot (rev name) with
  | [] => None
  | _ :: before => Some (rev before, rev (take_while not_dot (rev name)))
  end.

(** [PurePath.stem] of a final path component: the last dot splits the
    name unless it is the first or the last character. *)
Definition stem (name : str) : str :=
  match rsplit_dot name with
  | Some ((_ :: _) as before, _ :: _) => before
  | _ => name
  end.

(** [PurePath.with_suffix(suffix)] on the final component: the old
    suffix, when there is one, makes way for the new one, which leaves the
    stem. *)
Definition with_suffix (name suf : str) : str := stem name ++ suf.

(** [s.split('.')[0]]: the text before the first dot. *)
Fixpoint before_first_dot (s : str) : str :=
  match s with
  | [] => []
  | c :: s' => if c =? 46 then [] else c :: before_first_dot s'
  end.

(** ** Codecs *)

Definition bytes := list byte.

Definition blit (s : string) : bytes :=
  List.map byte_of_ascii (list_ascii_of_string s).

Inductive encoding : Type := utf_8 | utf_8_sig | latin_1 | cp1252 | iso_8859_1.

Definition is_cont (b : N) : bool := in_range 128 191 b.

(** Strict UTF-8: shortest forms only, no surrogates, nothing above
    U+10FFFF. *)
Fixpoint utf8_decode (b : list N) : option str :=
  match b with
  | [] => Some []
  | b0 :: r0 =>
      if b0 <? 128 then option_map (cons b0) (utf8_decode r0)
      else
        match r0 with
        | [] => None
        | b1 :: r1 =>
            if in_range 194 223 b0 then
              if is_cont b1
              then option_map (cons ((b0 - 192) * 64 + (b1 - 128))) (utf8_decode r1)
              else None
            else
              match r1 with
              | [] => None
              | b2 :: r2 =>
                  if in_range 224 239 b0 then
                    if is_cont b1 && is_cont b2
                       && negb ((b0 =? 224) && (b1 <? 160))
                       && negb ((b0 =? 237) && (160 <=? b1))
                    then option_map
                           (cons ((b0 - 224) * 4096 + (b1 - 128) * 64 + (b2 - 128)))
                           (utf8_decode r2)
                    else None
                  else
                    match r2 with
                    | [] => None
                    | b3 :: r3 =>
                        if in_range 240 244 b0 && is_cont b1 && is_cont b2 && is_cont b3
                           && negb ((b0 =? 240) && (b1 <? 144))
                           && negb ((b0 =? 244) && (144 <=? b1))
                        then option_map
                               (cons ((b0 - 240) * 262144 + (b1 - 128) * 4096
                                      + (b2 - 128) * 64 + (b3 - 128)))
                               (utf8_decode r3)
                        else None
                    end
              end
        end
  end.

(** The bytes 128 to 159 in code page 1252; five of them are undefined. *)
Definition cp1252_high : list (option char) :=
  [Some 8364; None; Some 8218; Some 402; Some 8222; Some 8230; Some 8224;
   Some 8225; Some 710; Some 8240; Some 352; Some 8249; Some 338; None;
   Some 381; None; None; Some 8216; Some 8217; Some 8220; Some 8221;
   Some 8226; Some 8211; Some 8212; Some 732; Some 8482; Some 353;
   Some 8250; Some 339; None; Some 382; Some 376].

Definition cp1252_char (b : N) : option char :=
  if in_range 128 159 b then nth (N.to_nat (b - 128)) cp1252_high None
  else Some b.

Fixpoint cp1252_decode (b : list N) : option str :=
  match b with
  | [] => Some []
  | b0 :: r =>
      match cp1252_char b0, cp1252_decode r with
      | Some c, Some s => Some (c :: s)
      | _, _ => None
      end
  end.

Definition strip_bom (b : list N) : list N :=
  match b with
  | 239 :: 187 :: 191 :: r => r
  | _ => b
  end.

Definition decode (enc : encoding) (data : bytes) : option str :=
  let b := List.map Byte.to_N data in
  match enc with
  | utf_8 => utf8_decode b
  | utf_8_sig => utf8_decode (strip_bom b)
  | latin_1 | iso_8859_1 => Some b
  | cp1252 => cp1252_decode b
  end.

(** Text mode reads translate [\r\n] and a lone [\r] to [\n]. *)
Fixpoint universal_newlines (s : str) : str :=
  match s with
  | [] => []
  | 13 :: s' =>
      10 :: match s' with
            | 10 :: s'' => universal_newlines s''
            | _ => universal_newlines s'
            end
  | c :: s' => c :: universal_newlines s'
  end.

(** A code point UTF-8 can carry. *)
Definition is_scalar (c : char) : bool :=
  (c <? 55296) || in_range 57344 1114111 c.

Definition to_byte (n : N) : byte :=
  match Byte.of_N n with Some b => b | None => x00 end.

Definition utf8_encode_char (c : char) : bytes :=
  if c <? 128 then [to_byte c]
  else if c <? 2048 then [to_byte (192 + c / 64); to_byte (128 + c mod 64)]
  else if c <? 65536 then
    [to_byte (224 + c / 4096); to_byte (128 + (c / 64) mod 64);
     to_byte (128 + c mod 64)]
  else
    [to_byte (240 + c / 262144); to_byte (128 + (c / 4096) mod 64);
     to_byte (128 + (c / 64) mod 64); to_byte (128 + c mod 64)].

(** [s.encode('utf-8')]; [None] is [UnicodeEncodeError]. *)
Definition utf8_encode (s : str) : option bytes :=
  if forallb is_scalar s then Some (flat_map utf8_encode_char s) else None.

(** ** The file system and the console *)

(** A path is its list of components, read from the working directory
    unless the first component is [/].  The entries of a world are keyed by
    normalised paths.  Symbolic links are followed on the last component of a
    path; a file can be created wherever no directory stands, the directories
    above it are taken to be there. *)
Definition path := list str.

Definition path_eq_dec : forall a b : path, {a = b} + {a <> b} :=
  list_eq_dec (list_eq_dec N.eq_dec).

Inductive node : Type :=
| File (data : bytes)
| Dir
| Link (target : path).

Definition name_of (p : path) : str := last p [].
Definition parent (p : path) : path := removelast p.

(** Lexical normalisation: [.] disappears, [..] removes the component
    before it. *)
Fixpoint norm_aux (stack : list str) (p : path) : path :=
  match p with
  | [] => rev stack
  | c :: p' =>
      if str_eqb c (lit ".") then norm_aux stack p'
      else if str_eqb c (lit "..") then
        match stack with
        | [] => norm_aux [c] p'
        | top :: below =>
            if str_eqb top (lit "..") then norm_aux (c :: stack) p'
            else if str_eqb top (lit "/") then norm_aux stack p'
            else norm_aux below p'
        end
      else norm_aux (c :: stack) p'
  end.

Definition norm (p : path) : path := norm_aux [] p.

Definition is_absolute (p : path) : bool :=
  match p with
  | c :: _ => str_eqb c (lit "/")
  | [] => false
  end.

(** Where the target [t] of a symbolic link stored in directory [d] leads:
    a relative target is read from the directory that holds the link. *)
Definition link_destination (d t : path) : path :=
  if is_absolute t then t else d ++ t.

Definition entries_t := list (path * node).

Fixpoint assoc (k : path) (es : entries_t) : option node :=
  match es with
  | [] => None
  | (k', v) :: es' => if path_eq_dec k k' then Some v else assoc k es'
  end.

Fixpoint assoc_set (k : path) (v : node) (es : entries_t) : entries_t :=
  match es with
  | [] => [(k, v)]
  | (k', v') :: es' =>
      if path_eq_dec k k' then (k, v) :: es' else (k', v') :: assoc_set k v es'
  end.

(** What the scripts do to the outside world, in order. *)
Inductive event : Type :=
| EvOpenRead (p : path) (enc : encoding)
| EvOpenWrite (p : path)
| EvSymlink (src dst : path)
| EvCopy (src dst : path)
| EvToCsv (p : path) (columns : list str) (rows : list (list (option str)))
| EvLoadModel (relaxed : bool).

(** The lines of the final reports, with the counters they print. *)
Inductive line : Type :=
| PrMatched (n : nat)
| PrSkipped (n : nat)
| PrNoPairs
| PrSaved (n : nat)
| PrComplete
| PrSuccess (n : nat)
| PrFailed (n : nat)
| PrTotal (n : nat)
| PrCsvSaved
| PrNoMatches
| PrOther.

Record world : Type := mkWorld {
  entries : entries_t;
  symlinks_allowed : bool;
  stdin : list str;
  trace : list event;
  stdout : list line
}.

Definition with_entries (es : entries_t) (w : world) : world :=
  mkWorld es (symlinks_allowed w) (stdin w) (trace w) (stdout w).

Definition record_event (e : event) (w : world) : world :=
  mkWorld (entries w) (symlinks_allowed w) (stdin w) (trace w ++ [e]) (stdout w).

Definition print (l : line) (w : world) : world :=
  mkWorld (entries w) (symlinks_allowed w) (stdin w) (trace w) (stdout w ++ [l]).

(** Follow symbolic links on the final component, at most forty of them. *)
Fixpoint resolve (fuel : nat) (es : entries_t) (p : path) : option path :=
  match assoc (norm p) es with
  | Some (Link t) =>
      match fuel with
      | O => None
      | S fuel' => resolve fuel' es (link_destination (parent (norm p)) t)
      end
  | _ => Some (norm p)
  end.

Definition MAXSYMLINKS : nat := 40.

(** [os.stat]: the file or directory a path leads to. *)
Definition stat (es : entries_t) (p : path) : option node :=
  match resolve MAXSYMLINKS es p with
  | Some q => assoc q es
  | None => None
  end.

(** [Path.exists()]. *)
Definition path_exists (w : world) (p : path) : bool :=
  match stat (entries w) p with
  | Some _ => true
  | None => false
  end.

(** The entries of directory [d], in directory order. *)
Definition listdir (w : world) (d : path) : list str :=
  flat_map (fun e : path * node =>
              match fst e with
              | [] => []
              | (_ :: _) as k =>
                  if path_eq_dec (parent k) (norm d) then [name_of k] else []
              end)
           (entries w).

(** [Path(d).glob('*' + ext)]. *)
Definition glob_suffix (w : world) (d : path) (ext : str) : list path :=
  List.map (fun n => d ++ [n]) (filter (ends_with ext) (listdir w d)).

Fixpoint strip_prefix (pre p : path) : option path :=
  match pre, p with
  | [], _ => Some p
  | _ :: _, [] => None
  | a :: pre', b :: p' =>
      if list_eq_dec N.eq_dec a b then strip_prefix pre' p' else None
  end.

(** [Path(d).rglob('*' + ext)]: every entry below [d], at any depth. *)
Definition rglob_suffix (w : world) (d : path) (ext : str) : list path :=
  flat_map (fun e : path * node =>
              match strip_prefix (norm d) (fst e) with
              | Some ((_ :: _) as rel) =>
                  if ends_with ext (name_of rel) then [d ++ rel] else []
              | _ => []
              end)
           (entries w).

(** *** Exceptions and the I/O monad *)

Inductive exn : Type :=
| OSError
| UnicodeDecodeError
| UnicodeEncodeError
| ValueError
| EOFError
| OtherError.

(** [isinstance(e, ValueError)]: the Unicode errors are its subclasses. *)
Definition is_ValueError (e : exn) : bool :=
  match e with
  | ValueError | UnicodeDecodeError | UnicodeEncodeError => true
  | _ => false
  end.

Inductive outcome (A : Type) : Type :=
| Ok (a : A)
| Raise (e : exn).
Arguments Ok {A} a.
Arguments Raise {A} e.

Definition IO (A : Type) : Type := world -> outcome A * world.

Definition ret {A} (a : A) : IO A := fun w => (Ok a, w).
Definition raise {A} (e : exn) : IO A := fun w => (Raise e, w).

Definition bind {A B} (m : IO A) (k : A -> IO B) : IO B :=
  fun w =>
    match m w with
    | (Ok a, w') => k a w'
    | (Raise e, w') => (Raise e, w')
    end.

(** [try: m  except: h]; what [m] did before it raised stays done. *)
Definition try_except {A} (m : IO A) (h : exn -> IO A) : IO A :=
  fun w =>
    match m w with
    | (Ok a, w') => (Ok a, w')
    | (Raise e, w') => h e w'
    end.

Declare Scope io_scope.
Delimit Scope io_scope with io.
Notation "x <- m ;; k" := (bind m (fun x => k))
  (at level 61, m at next level, right associativity) : io_scope.
Notation "m ;;; k" := (bind m (fun _ => k))
  (at level 61, right associativity) : io_scope.
Open Scope io_scope.

Definition say (l : line) : IO unit := fun w => (Ok tt, print l w).
Definition exists_ (p : path) : IO bool := fun w => (Ok (path_exists w p), w).

(** [input(...)]. *)
Definition input : IO str :=
  fun w =>
    match stdin w with
    | [] => (Raise EOFError, w)
    | l :: rest =>
        (Ok l, mkWorld (entries w) (symlinks_allowed w) rest (trace w) (stdout w))
    end.

(** [open(p, 'r', encoding=enc).read()]. *)
Definition read_text (p : path) (enc : encoding) : IO str :=
  fun w =>
    let w := record_event (EvOpenRead p enc) w in
    match stat (entries w) p with
    | Some (File data) =>
        match decode enc data with
        | Some s => (Ok (universal_newlines s), w)
        | None => (Raise UnicodeDecodeError, w)
        end
    | _ => (Raise OSError, w)
    end.

(** [open(p, 'w', encoding='utf-8').write(s)]: the file is created or
    emptied when it is opened, before the text is encoded. *)
Definition write_text (p : path) (s : str) : IO unit :=
  fun w =>
    let w := record_event (EvOpenWrite p) w in
    match resolve MAXSYMLINKS (entries w) p with
    | None => (Raise OSError, w)
    | Some q =>
        match assoc q (entries w) with
        | Some Dir => (Raise OSError, w)
        | _ =>
            match utf8_encode s with
            | Some b => (Ok tt, with_entries (assoc_set q (File b) (entries w)) w)
            | None =>
                (Raise UnicodeEncodeError,
                 with_entries (assoc_set q (File []) (entries w)) w)
            end
        end
    end.

(** [os.symlink(src, dst)]: the target text is stored as given. *)
Definition symlink (src dst : path) : IO unit :=
  fun w =>
    let w := record_event (EvSymlink src dst) w in
    match assoc (norm dst) (entries w) with
    | Some _ => (Raise OSError, w)
    | None =>
        if symlinks_allowed w
        then (Ok tt, with_entries (assoc_set (norm dst) (Link src) (entries w)) w)
        else (Raise OSError, w)
    end.

(** [shutil.copy2(src, dst)]: the content of the file [src] leads to is
    written where [dst] leads to, inside [dst] when that is a directory. *)
Definition copy2 (src dst : path) : IO unit :=
  fun w =>
    let w := record_event (EvCopy src dst) w in
    let dst := match stat (entries w) dst with
               | Some Dir => dst ++ [name_of src]
               | _ => dst
               end in
    match stat (entries w) src with
    | Some (File data) =>
        match resolve MAXSYMLINKS (entries w) src,
              resolve MAXSYMLINKS (entries w) dst with
        | Some qs, Some qd =>
            if path_eq_dec qs qd then (Raise OSError, w)
            else
              match assoc qd (entries w) with
              | Some Dir => (Raise OSError, w)
              | _ => (Ok tt, with_entries (assoc_set qd (File data) (entries w)) w)
              end
        | _, _ => (Raise OSError, w)
        end
    | _ => (Raise OSError, w)
    end.

(** [os.makedirs(p, exist_ok=True)] and [Path.mkdir(parents=True,
    exist_ok=True)]. *)
Definition makedirs (p : path) : IO unit :=
  fun w =>
    match stat (entries w) p with
    | Some Dir => (Ok tt, w)
    | Some _ => (Raise OSError, w)
    | None =>
        match assoc (norm p) (entries w) with
        | Some _ => (Raise OSError, w)
        | None => (Ok tt, with_entries (assoc_set (norm p) Dir (entries w)) w)
        end
    end.

(** The image step both scripts share, word for word:
    [if not dst.exists(): try: os.symlink(src, dst) except: shutil.copy2(src, dst)]. *)
Definition link_or_copy (src dst : path) : IO unit :=
  present <- exists_ dst ;;
  if present then ret tt
  else try_except (symlink src dst) (fun _ => copy2 src dst).

Definition glob (d : path) (ext : str) : IO (list path) :=
  fun w => (Ok (glob_suffix w d ext), w).
Definition rglob (d : path) (ext : str) : IO (list path) :=
  fun w => (Ok (rglob_suffix w d ext), w).

(** [for x in xs: body], the loop variables threaded through. *)
Fixpoint for_each {A S : Type} (xs : list A) (body : A -> S -> IO S) (s : S)
  : IO S :=
  match xs with
  | [] => ret s
  | x :: xs' => s' <- body x s ;; for_each xs' body s'
  end.

(** *** Data frames

    A dict literal is the list of its items in insertion order.
    [pd.DataFrame(list_of_dicts)] takes its columns from the keys, in the
    order they are first seen; [to_csv(path, index=False)] writes the column
    names as the header and one line per row.  The byte format of the file is
    the library's and stays a parameter. *)

Definition record := list (str * str).

Fixpoint dict_get (k : str) (r : record) : option str :=
  match r with
  | [] => None
  | (k', v) :: r' => if str_eqb k k' then Some v else dict_get k r'
  end.

Record DataFrame : Type := mkFrame {
  columns : list str;
  rows : list (list (option str))
}.

Definition add_key (cols : list str) (k : str) : list str :=
  if existsb (str_eqb k) cols then cols else cols ++ [k].

Definition frame_columns (rs : list record) : list str :=
  fold_left (fun cols r => fold_left add_key (List.map fst r) cols) rs [].

Definition DataFrame_of (rs : list record) : DataFrame :=
  let cols := frame_columns rs in
  mkFrame cols (List.map (fun r => List.map (fun c => dict_get c r) cols) rs).

Definition to_csv (csv_bytes : DataFrame -> bytes) (df : DataFrame) (p : path)
  : IO unit :=
  fun w =>
    let w := record_event (EvToCsv p (columns df) (rows df)) w in
    match resolve MAXSYMLINKS (entries w) p with
    | None => (Raise OSError, w)
    | Some q =>
        match assoc q (entries w) with
        | Some Dir => (Raise OSError, w)
        | _ => (Ok tt, with_entries (assoc_set q (File (csv_bytes df)) (entries w)) w)
        end
    end.

(** ** clean_and_prepare_captions.py *)

Module clean_and_prepare_captions.

Definition TEXT_DIR : path := [lit ".."; lit "data"; lit "text"].
Definition IMAGE_DIR : path := [lit ".."; lit "data"; lit "images"].
Definition OUTPUT_TRAIN_DIR : path :=
  [lit ".."; lit "data"; lit "processed"; lit "train"].
Definition OUTPUT_CSV : path :=
  [lit ".."; lit "data"; lit "captions"; lit "final_captions.csv"].
Definition MAX_CAPTION_WORDS : nat := 30.

Definition EXTENSIONS : list str :=
  [lit ".jpg"; lit ".jpeg"; lit ".png"; lit ".JPG"; lit ".JPEG"; lit ".PNG"].

Definition subjects : list str :=
  [lit "person"; lit "woman"; lit "man"; lit "individual"; lit "girl"; lit "boy"].

(** [r'This (person|woman|man|individual|girl|boy) (is|has)'] *)
Definition re_this : regex :=
  RSeq (rlit true (lit "This "))
    (RSeq (ralt true subjects)
       (RSeq (rlit true (lit " ")) (ralt true [lit "is"; lit "has"]))).

(** [r'The (person|woman|man|individual|girl|boy) (is|has)'] *)
Definition re_the : regex :=
  RSeq (rlit true (lit "The "))
    (RSeq (ralt true subjects)
       (RSeq (rlit true (lit " ")) (ralt true [lit "is"; lit "has"]))).

(** [r'She (is|has|wears)'] and [r'He (is|has|wears)'] *)
Definition re_she : regex :=
  RSeq (rlit true (lit "She ")) (ralt true [lit "is"; lit "has"; lit "wears"]).
Definition re_he : regex :=
  RSeq (rlit true (lit "He ")) (ralt true [lit "is"; lit "has"; lit "wears"]).

(** [r',\s*,+'] *)
Definition re_commas : regex :=
  RSeq (RChar (N.eqb 44)) (RSeq (RStar isspace) (RPlus (N.eqb 44))).

Record counters : Type := mkCounters {
  results : list record;
  matched_count : nat;
  skipped_count : nat
}.

Definition skip (st : counters) : counters :=
  mkCounters (results st) (matched_count st) (S (skipped_count st)).

(** [for ext in [...]: if (IMAGE_DIR / (image_name + ext)).exists(): break] *)
Fixpoint find_image (image_name : str) (exts : list str)
  : IO (option (path * str)) :=
  match exts with
  | [] => ret None
  | ext :: rest =>
      let potential_path := IMAGE_DIR ++ [image_name ++ ext] in
      present <- exists_ potential_path ;;
      if present then ret (Some (potential_path, image_name ++ ext))
      else find_image image_name rest
  end.

Section Libraries.

(** [str.upper] of a one-character string (it may return several
    characters); the Unicode case tables are the interpreter's. *)
Variable upper : char -> str.

(** The bytes [DataFrame.to_csv] writes. *)
Variable csv_bytes : DataFrame -> bytes.

(** The caption before the capital is set and the period is added:
    lines 29 to 50 of [clean_caption]. *)
Definition body (caption : str) : str :=
  let caption := re_sub re_this [] caption in
  let caption := re_sub re_the [] caption in
  let caption := re_sub re_she [] caption in
  let caption := re_sub re_he [] caption in
  let caption := replace (lit ". ") (lit ", ") caption in
  let caption := replace (lit "..") (lit ".") caption in
  let caption := re_sub re_spaces (lit " ") caption in
  let caption := re_sub re_commas (lit ",") caption in
  let caption := strip_chars (lit " .,") caption in
  let words := split caption in
  if (MAX_CAPTION_WORDS <? length words)%nat
  then join (lit " ") (firstn MAX_CAPTION_WORDS words)
  else caption.

(** [if caption: caption = caption[0].upper() + caption[1:]] *)
Definition capitalize (caption : str) : str :=
  match caption with
  | [] => []
  | c :: rest => upper c ++ rest
  end.

Definition clean_caption (caption : str) : str :=
  let caption := capitalize (body caption) in
  strip (rstrip_chars (lit ",") caption) ++ lit ".".

(** One turn of the first loop of [main] (lines 93 to 136). *)
Definition process_caption_file (caption_file : path) (st : counters)
  : IO counters :=
  let image_name := stem (name_of caption_file) in
  found <- find_image image_name EXTENSIONS ;;
  match found with
  | None => ret (skip st)
  | Some (_, image_filename) =>
      try_except
        (text <- read_text caption_file utf_8 ;;
         let original_caption := strip text in
         if (length original_caption <? 5)%nat then ret (skip st)
         else
           let cleaned_caption := clean_caption original_caption in
           ret (mkCounters
                  (results st ++
                     [[(lit "image_id", image_filename);
                       (lit "original_caption", original_caption);
                       (lit "cleaned_caption", cleaned_caption)]])
                  (S (matched_count st))
                  (skipped_count st)))
        (fun _ => ret (skip st))
  end.

Definition field (k : str) (r : record) : str :=
  match dict_get k r with Some v => v | None => [] end.

(** One turn of the second loop of [main] (lines 184 to 215); nothing here
    catches what [shutil.copy2] or the caption write raise. *)
Definition save_row (row : record) (saved_count : nat) : IO nat :=
  let image_id := field (lit "image_id") row in
  let caption := field (lit "cleaned_caption") row in
  found <- find_image (before_first_dot image_id) EXTENSIONS ;;
  let src_image :=
    match found with
    | Some (potential_path, _) => potential_path
    | None => IMAGE_DIR ++ [image_id]
    end in
  present <- exists_ src_image ;;
  if present then
    let dst_image := OUTPUT_TRAIN_DIR ++ [image_id] in
    link_or_copy src_image dst_image ;;;
    let txt_file := OUTPUT_TRAIN_DIR ++ [with_suffix image_id (lit ".txt")] in
    write_text txt_file caption ;;;
    ret (S saved_count)
  else ret saved_count.

(** The report after the first loop (lines 138 to 140). *)
Definition report (st : counters) : IO unit :=
  say (PrMatched (matched_count st)) ;;;
  if (0 <? skipped_count st)%nat then say (PrSkipped (skipped_count st))
  else ret tt.

(** Lines 87 to 140: the first loop and its report. *)
Definition matching_pass (caption_files : list path) : IO counters :=
  st <- for_each caption_files process_caption_file (mkCounters [] 0 0) ;;
  report st ;;;
  ret st.

Definition main : IO unit :=
  text_dir <- exists_ TEXT_DIR ;;
  if negb text_dir then ret tt else
  image_dir <- exists_ IMAGE_DIR ;;
  if negb image_dir then ret tt else
  caption_files <- glob TEXT_DIR (lit ".txt") ;;
  match caption_files with
  | [] => ret tt
  | _ =>
      st <- matching_pass caption_files ;;
      if (matched_count st =? 0)%nat then say PrNoPairs
      else
        let df := DataFrame_of (results st) in
        makedirs (parent OUTPUT_CSV) ;;;
        to_csv csv_bytes df OUTPUT_CSV ;;;
        makedirs OUTPUT_TRAIN_DIR ;;;
        saved_count <- for_each (results st) save_row 0%nat ;;
        say (PrSaved saved_count) ;;;
        say PrComplete
  end.

End Libraries.

End clean_and_prepare_captions.

(** ** process_all_captions.py *)

Module process_all_captions.

Definition clean_caption (text : str) : str :=
  match text with
  | [] => []
  | _ =>
      let text := re_sub re_spaces (lit " ") (strip text) in
      let text := if (300 <? length text)%nat then firstn 300 text else text in
      strip text
  end.

Definition find_caption_files (start_path : path) : IO (list path) :=
  present <- exists_ start_path ;;
  if present then rglob start_path (lit ".txt") else ret [].

Definition IMAGE_PATTERNS : list str :=
  [lit ".jpg"; lit ".jpeg"; lit ".png"; lit ".JPG"; lit ".PNG"; lit ".JPEG"].

Definition find_image_files (img_dir : path) : IO (list path) :=
  present <- exists_ img_dir ;;
  if present then
    for_each IMAGE_PATTERNS
      (fun ext images => found <- glob img_dir ext ;; ret (images ++ found)) []
  else ret [].

Definition same_stem (cap_file img_file : path) : bool :=
  str_eqb (stem (name_of img_file)) (stem (name_of cap_file)).

(** The inner loop with its [break]: the first image with the caption's
    stem. *)
Definition first_image (cap_file : path) (images : list path) : option path :=
  find (same_stem cap_file) images.

Definition match_images_captions (captions images : list path)
  : list (path * path) :=
  flat_map (fun cap_file =>
              match first_image cap_file images with
              | Some img_file => [(img_file, cap_file)]
              | None => []
              end)
           captions.

Definition encodings : list encoding :=
  [utf_8; utf_8_sig; latin_1; cp1252; iso_8859_1].

Fixpoint read_caption_file_with (encs : list encoding) (filepath : path)
  : IO (option str) :=
  match encs with
  | [] => ret None
  | enc :: rest =>
      try_except (text <- read_text filepath enc ;; ret (Some text))
                 (fun _ => read_caption_file_with rest filepath)
  end.

Definition read_caption_file (filepath : path) : IO (option str) :=
  read_caption_file_with encodings filepath.

Definition output_dir : path :=
  [lit ".."; lit "data"; lit "processed"; lit "train"].
Definition csv_file : path :=
  [lit ".."; lit "data"; lit "captions"; lit "final_captions.csv"].
Definition default_img_path : path := [lit ".."; lit "data"; lit "images"].

Record counters : Type := mkCounters {
  results : list record;
  success : nat;
  failed : nat
}.

Definition fail (st : counters) : counters :=
  mkCounters (results st) (success st) (S (failed st)).

(** One turn of the loop of step 5 (lines 170 to 202). *)
Definition process_pair (pair : path * path) (st : counters) : IO counters :=
  let (img_file, cap_file) := pair in
  try_except
    (caption_text <- read_caption_file cap_file ;;
     match caption_text with
     | None | Some [] => ret (fail st)
     | Some caption_text =>
         let caption_text := clean_caption caption_text in
         let dst_img := output_dir ++ [name_of img_file] in
         link_or_copy img_file dst_img ;;;
         let txt_out := output_dir ++ [with_suffix (name_of img_file) (lit ".txt")] in
         write_text txt_out caption_text ;;;
         ret (mkCounters
                (results st ++
                   [[(lit "image_id", name_of img_file);
                     (lit "caption", caption_text)]])
                (S (success st))
                (failed st))
     end)
    (fun _ => ret (fail st)).

(** [Path(text)]: the components between slashes. *)
Fixpoint components (cur : str) (s : str) : list str :=
  match s with
  | [] => match cur with [] => [] | _ => [rev cur] end
  | c :: s' =>
      if c =? 47 then
        match cur with
        | [] => components [] s'
        | _ => rev cur :: components [] s'
        end
      else components (c :: cur) s'
  end.

Definition Path (text : str) : path :=
  let parts := filter (fun c => negb (str_eqb c (lit "."))) (components [] text) in
  match text with
  | 47 :: _ => lit "/" :: parts
  | _ => parts
  end.

Definition auto_search : list path :=
  [[lit ".."; lit "data"; lit "text"; lit "celeba-caption"];
   [lit ".."; lit "data"; lit "text"];
   [lit ".."; lit "data"]].

Fixpoint first_existing (ps : list path) : IO (option path) :=
  match ps with
  | [] => ret None
  | p :: rest =>
      present <- exists_ p ;;
      if present then ret (Some p) else first_existing rest
  end.

(** The report of step 6 (lines 208 to 210). *)
Definition report (st : counters) : IO unit :=
  say (PrSuccess (success st)) ;;;
  say (PrFailed (failed st)) ;;;
  say (PrTotal (length (results st))).

(** Lines 164 to 210: the loop of step 5 and its report. *)
Definition processing_pass (matches : list (path * path)) : IO counters :=
  st <- for_each matches process_pair (mkCounters [] 0 0) ;;
  report st ;;;
  ret st.

Section Libraries.

(** Whether [import pandas] worked. *)
Variable HAS_PANDAS : bool.

(** The bytes [DataFrame.to_csv] writes. *)
Variable csv_bytes : DataFrame -> bytes.

Definition main : IO bool :=
  answer <- input ;;
  caption_path <-
    match strip answer with
    | [] => first_existing auto_search
    | text => ret (Some (Path text))
    end ;;
  match caption_path with
  | None => ret false
  | Some caption_path =>
      present <- exists_ caption_path ;;
      if negb present then ret false else
      caption_files <- find_caption_files caption_path ;;
      match caption_files with
      | [] => ret false
      | _ =>
          default_present <- exists_ default_img_path ;;
          img_path <-
            (if default_present then ret default_img_path
             else (answer <- input ;; ret (Path (strip answer)))) ;;
          image_files <- find_image_files img_path ;;
          match image_files with
          | [] => ret false
          | _ =>
              let matches := match_images_captions caption_files image_files in
              match matches with
              | [] => say PrNoMatches ;;; ret false
              | _ =>
                  makedirs output_dir ;;;
                  st <- processing_pass matches ;;
                  match results st with
                  | [] => ret false
                  | _ =>
                      (if HAS_PANDAS then
                         makedirs (parent csv_file) ;;;
                         to_csv csv_bytes (DataFrame_of (results st)) csv_file ;;;
                         say PrCsvSaved
                       else ret tt) ;;;
                      ret true
                  end
              end
          end
      end
  end.

End Libraries.

End process_all_captions.

(** ** caption_generator_finetuned.py *)

Module caption_generator_finetuned.

Definition IMG_DIR : path := [lit ".."; lit "data"; lit "images"].
Definition ATTR_PATH : path := [lit ".."; lit "data"; lit "list_attr_celeba.csv"].
Definition OUTPUT_CAPTION_FILE : path :=
  [lit ".."; lit "data"; lit "captions"; lit "fine_tuned_criminal_captions.csv"].

(** [x in attributes] for a list of attribute names. *)
Definition has (x : string) (attributes : list str) : bool :=
  existsb (str_eqb (lit x)) attributes.

Definition make_criminal_style_caption (base_caption : str) (attributes : list str)
  : str :=
  let gender := if has "Male" attributes then lit "male" else lit "female" in
  let emotion := lit "neutral expression" in
  let emotion := if has "Smiling" attributes then lit "smiling expression" else emotion in
  let emotion := if has "Angry" attributes then lit "angry look" else emotion in
  let emotion := if has "Sad" attributes then lit "sad face" else emotion in
  let emotion := if has "Surprised" attributes then lit "surprised expression" else emotion in
  let hair :=
    if has "Bald" attributes then lit "bald head"
    else if has "Black_Hair" attributes then lit "black hair"
    else if has "Blond_Hair" attributes then lit "blond hair"
    else if has "Brown_Hair" attributes then lit "brown hair"
    else if has "Gray_Hair" attributes then lit "gray hair"
    else lit "short hair" in
  let beard :=
    if has "Beard" attributes || has "Goatee" attributes
    then lit "with facial hair" else lit "no beard" in
  lit "A " ++ gender ++ lit " suspect with " ++ hair ++ lit ", " ++ beard
    ++ lit ", and a " ++ emotion ++ lit ".".

(** A cell of the attribute table: a number or a text. *)
Inductive cell : Type :=
| CNum (z : Z)
| CText (s : str).

Record attr_frame : Type := mkAttrs {
  attr_columns : list str;
  attr_rows : list (list cell)
}.

(** [row.items()]. *)
Definition items (df : attr_frame) (row : list cell) : list (str * cell) :=
  combine (attr_columns df) row.

Fixpoint lookup_cell (k : str) (r : list (str * cell)) : option cell :=
  match r with
  | [] => None
  | (k', v) :: r' => if str_eqb k k' then Some v else lookup_cell k r'
  end.

Definition is_text (name : str) (c : option cell) : bool :=
  match c with
  | Some (CText s) => str_eqb s name
  | _ => false
  end.

Definition is_one (c : cell) : bool :=
  match c with
  | CNum z => Z.eqb z 1
  | CText _ => false
  end.

(** Lines 116 to 120: the names of the columns that hold 1 in the first row
    of the image; a table without the column [image_id] raises [KeyError]. *)
Definition attributes_of (attr_df : attr_frame) (img_name : str)
  : outcome (list str) :=
  match attr_rows attr_df with
  | [] => Ok []
  | _ =>
      if existsb (str_eqb (lit "image_id")) (attr_columns attr_df) then
        match find (fun row => is_text img_name
                                 (lookup_cell (lit "image_id") (items attr_df row)))
                   (attr_rows attr_df) with
        | Some row =>
            Ok (List.map fst (filter (fun kv => is_one (snd kv)) (items attr_df row)))
        | None => Ok []
        end
      else Raise OtherError
  end.

(** [img_name.lower().endswith((".jpg", ".png"))]. *)
Definition is_image_name (img_name : str) : bool :=
  let lowered := List.map ascii_lower img_name in
  ends_with (lit ".jpg") lowered || ends_with (lit ".png") lowered.

Section Libraries.

(** The captioning library: loading the model, with or without the relaxed
    options of the second attempt, and describing the image of a file. *)
Variable model : Type.
Variable from_pretrained : bool -> outcome model.
Variable describe : model -> bytes -> outcome str.

(** [pd.read_csv] on the attribute table. *)
Variable read_csv : bytes -> outcome attr_frame.

(** The bytes [DataFrame.to_csv] writes. *)
Variable csv_bytes : DataFrame -> bytes.

Definition call_from_pretrained (relaxed : bool) : IO model :=
  fun w => (from_pretrained relaxed, record_event (EvLoadModel relaxed) w).

(** Lines 41 to 52: [try: load  except ValueError: load with relaxed options]. *)
Definition load_model : IO model :=
  try_except (call_from_pretrained false)
    (fun e => if is_ValueError e then call_from_pretrained true else raise e).

Definition lift {A} (o : outcome A) : IO A := fun w => (o, w).

Definition read_bytes (p : path) : IO bytes :=
  fun w =>
    match stat (entries w) p with
    | Some (File data) => (Ok data, w)
    | _ => (Raise OSError, w)
    end.

Definition load_attributes : IO attr_frame :=
  present <- exists_ ATTR_PATH ;;
  if present then (data <- read_bytes ATTR_PATH ;; lift (read_csv data))
  else ret (mkAttrs [lit "image_id"; lit "attributes"] []).

(** One turn of the loop of lines 105 to 123. *)
Definition caption_image (m : model) (attr_df : attr_frame) (img_name : str)
    (captions : list record) : IO (list record) :=
  if negb (is_image_name img_name) then ret captions
  else
    data <- read_bytes (IMG_DIR ++ [img_name]) ;;
    base_caption <- lift (describe m data) ;;
    attributes <- lift (attributes_of attr_df img_name) ;;
    let fine_caption := make_criminal_style_caption base_caption attributes in
    ret (captions ++ [[(lit "image", img_name); (lit "caption", fine_caption)]]).

Definition os_listdir (d : path) : IO (list str) :=
  fun w =>
    match stat (entries w) d with
    | Some Dir => (Ok (listdir w d), w)
    | _ => (Raise OSError, w)
    end.

(** The script, up to the caption file it writes. *)
Definition script : IO unit :=
  m <- load_model ;;
  attr_df <- load_attributes ;;
  names <- os_listdir IMG_DIR ;;
  captions <- for_each names (caption_image m attr_df) [] ;;
  makedirs (parent OUTPUT_CAPTION_FILE) ;;;
  to_csv csv_bytes (DataFrame_of captions) OUTPUT_CAPTION_FILE.

End Libraries.

End caption_generator_finetuned.

(** ** Vocabulary of the properties *)

(** The number of words that start in [s], when the character before [s]
    was part of a word ([inword]) or not. *)
Fixpoint wc_from (inword : bool) (s : str) : nat :=
  match s with
  | [] => 0
  | c :: s' =>
      if isspace c then wc_from false s'
      else ((if inword then 0 else 1) + wc_from true s')%nat
  end.

Definition nonempty (s : str) : bool :=
  match s with [] => false | _ => true end.

(** Whether the text read so far ends inside a word. *)
Definition ends_inword (inword : bool) (x : str) : bool :=
  match rev x with
  | [] => inword
  | c :: _ => negb (isspace c)
  end.

Definition nonspace (c : char) : bool := negb (isspace c).

Definition is_word (w : str) : bool := nonempty w && forallb nonspace w.

Definition stem_of (p : path) : str := stem (name_of p).


(** ** Example inputs *)

Definition images_dir : path := [lit ".."; lit "data"; lit "images"].
Definition text_dir : path := [lit ".."; lit "data"; lit "text"].
Definition train_dir : path := [lit ".."; lit "data"; lit "processed"; lit "train"].
Definition image_file (name : string) : path := images_dir ++ [lit name].
Definition text_file (name : string) : path := text_dir ++ [lit name].
Definition train_file (name : string) : path := train_dir ++ [lit name].

Definition example_world (files : list (path * node)) (symlinks : bool) : world :=
  mkWorld ((text_dir, Dir) :: (images_dir, Dir) :: files) symlinks [] [] [].

(** Two images with one stem and the caption of that stem. *)
Definition world_two_images : world :=
  example_world
    [(image_file "a.jpg", File (blit "JPG"));
     (image_file "a.png", File (blit "PNG"));
     (text_file "a.txt", File (blit "A man with short hair."))]
    false.

(** Thirty-one words; the thirtieth ends in a period and a tab follows it. *)
Definition caption_31_words : str :=
  lit "a b c d e f g h i j k l m n o p q r s t u v w x y z a b c d."
    ++ [9] ++ lit "e".

(** One image, its caption, nothing to skip. *)
Definition world_one_pair : world :=
  example_world
    [(image_file "a.jpg", File (blit "JPG"));
     (text_file "a.txt", File (blit "A man with short hair."))]
    false.


(** What every primitive but [say] and [input] leaves alone. *)
Definition quiet (w w' : world) : Prop :=
  stdout w' = stdout w /\ stdin w' = stdin w
  /\ symlinks_allowed w' = symlinks_allowed w.


(** A run of [m] adds events to the trace, and every event it adds
    satisfies [ok]. *)
Definition appends {A : Type} (ok : event -> Prop) (m : IO A) : Prop :=
  forall w, exists new, trace (snd (m w)) = trace w ++ new /\ Forall ok new.

(** Whenever [m] returns a value, the value satisfies [V]. *)
Definition yields {A : Type} (m : IO A) (V : A -> Prop) : Prop :=
  forall w a, fst (m w) = Ok a -> V a.

(** The column names a written CSV file may have. *)
Definition csv_headers (allowed : list (list str)) (e : event) : Prop :=
  match e with
  | EvToCsv _ cols _ => In cols allowed
  | _ => True
  end.

Definition example_csv_bytes (df : DataFrame) : bytes := [].

Definition columns_clean_and_prepare : list str :=
  [lit "image_id"; lit "original_caption"; lit "cleaned_caption"].
Definition columns_process_all : list str := [lit "image_id"; lit "caption"].
Definition columns_generator : list str := [lit "image"; lit "caption"].

(** Every record lists exactly the keys [ks], in this order. *)
Definition records_with (ks : list str) (rs : list record) : Prop :=
  Forall (fun r => List.map fst r = ks) rs.

(** The records of [clean_and_prepare_captions] are counted by
    [matched_count] and have its three keys. *)
Definition good_counters (st : clean_and_prepare_captions.counters) : Prop :=
  length (clean_and_prepare_captions.results st)
  = clean_and_prepare_captions.matched_count st
  /\ records_with columns_clean_and_prepare
       (clean_and_prepare_captions.results st).

Definition good_results (st : process_all_captions.counters) : Prop :=
  records_with columns_process_all (process_all_captions.results st).

(** One image the generator captions: the model loads at once, the image is
    described, the attribute table is absent. *)
Definition world_generator : world :=
  example_world [(image_file "a.jpg", File (blit "JPG"))] false.

(** A captioning library for the examples: the model is a token, loading
    works at once, every image is described by the same words, and no
    attribute table is read. *)
Definition example_from_pretrained (relaxed : bool) : outcome unit := Ok tt.
Definition example_describe (m : unit) (data : bytes) : outcome str :=
  Ok (lit "a man with a hat").
Definition example_read_csv (data : bytes)
  : outcome caption_generator_finetuned.attr_frame := Raise OtherError.

Definition example_script : IO unit :=
  caption_generator_finetuned.script unit example_from_pretrained
    example_describe example_read_csv example_csv_bytes.








(** A caption file that is not UTF-8: the byte 255, then ASCII text. *)
Definition world_latin1_caption : world :=
  example_world
    [(image_file "a.jpg", File (blit "JPG"));
     (text_file "a.txt", File (xff :: blit "A man."))]
    false.

(** The events of placing an image: nothing, a link, or a link attempt and
    a copy. *)
Definition image_steps (src dst : path) (steps : list event) : Prop :=
  steps = [] \/ steps = [EvSymlink src dst]
  \/ steps = [EvSymlink src dst; EvCopy src dst].

(** The events of writing a caption file: nothing or one write. *)
Definition caption_writes (txt : path) (writes : list event) : Prop :=
  writes = [] \/ writes = [EvOpenWrite txt].

(** An image whose name has a dot before the extension, next to the image
    named by the text before that dot. *)
Definition dotted_files : list (path * node) :=
  [(image_file "a.jpg", File (blit "image of a"));
   (image_file "a.b.jpg", File (blit "image of a.b"));
   (text_file "a.b.txt", File (blit "A woman with long hair. She is smiling."))].

Definition world_dotted_names : world := example_world dotted_files false.
Definition world_dotted_names_links : world := example_world dotted_files true.



(** ** Vocabulary and examples of the further properties *)

(** A written CSV file has rows, every row has one cell per column, and no
    cell is missing. *)
Definition csv_rows_filled (e : event) : Prop :=
  match e with
  | EvToCsv _ cols rows =>
      rows <> []
      /\ forall row, In row rows ->
           length row = length cols /\ forall cell, In cell row -> cell <> None
  | _ => True
  end.

(** An image and an empty caption file. *)
Definition world_empty_caption : world :=
  example_world
    [(image_file "a.jpg", File (blit "JPG")); (text_file "a.txt", File [])]
    false.

(** A caption without an image beside an image without a caption. *)
Definition world_unmatched_caption : world :=
  example_world
    [(image_file "b.jpg", File (blit "JPG"));
     (text_file "a.txt", File (blit "A man with short hair."))]
    false.

(** What [re.sub(r'\s+', ' ', s)] computes: every run of white space becomes
    one space.  [in_run] tells whether the character before was white
    space. *)
Fixpoint collapse (in_run : bool) (s : str) : str :=
  match s with
  | [] => []
  | c :: s' =>
      if isspace c then
        if in_run then collapse true s' else 32 :: collapse true s'
      else c :: collapse false s'
  end.

(** White space occurs in [s] only as single spaces, none of them first when
    [in_run] is set. *)
Fixpoint spaced (in_run : bool) (s : str) : bool :=
  match s with
  | [] => true
  | c :: s' =>
      if isspace c then (c =? 32) && negb in_run && spaced true s'
      else spaced false s'
  end.

(** The text does not start with white space. *)
Definition starts_clean (s : str) : bool :=
  match s with
  | [] => true
  | c :: _ => negb (isspace c)
  end.

(** A caption directory for the example of [process_all_captions.main]: the
    answer to the prompt is empty, so the directory is searched for. *)
Definition world_asked : world :=
  mkWorld
    [(text_dir, Dir); (images_dir, Dir);
     (image_file "a.jpg", File (blit "JPG"));
     (text_file "a.txt", File (blit "A man with short hair."))]
    false [[]] [] [].
(* ================================================================== *)
(** * Part II: properties *)
(* ================================================================== *)

(** ** Words *)

Lemma split_aux_length (s cur : str) :
  length (split_aux cur s)
  = ((if nonempty cur then 1 else 0) + wc_from (nonempty cur) s)%nat.
Proof.
  revert cur; induction s as [|c s IH]; intros cur; simpl.
  - destruct cur; reflexivity.
  - destruct (isspace c).
    + destruct cur; simpl; rewrite IH; reflexivity.
    + rewrite IH; simpl. destruct cur; simpl; lia.
Qed.

Lemma split_length (s : str) : length (split s) = wc_from false s.
Proof. unfold split. rewrite split_aux_length. reflexivity. Qed.

Lemma wc_from_bounds (s : str) :
  (wc_from true s <= wc_from false s <= wc_from true s + 1)%nat.
Proof.
  destruct s as [|c s]; simpl; [lia|]. destruct (isspace c); lia.
Qed.

Lemma wc_from_le (b : bool) (s : str) : (wc_from b s <= wc_from false s)%nat.
Proof. destruct b; [apply wc_from_bounds | lia]. Qed.

Lemma ends_inword_cons (b : bool) (c : char) (x : str) :
  ends_inword b (c :: x) = ends_inword (negb (isspace c)) x.
Proof.
  unfold ends_inword. simpl. destruct (rev x) as [|d r] eqn:E; simpl; reflexivity.
Qed.

Lemma wc_from_app (x y : str) (b : bool) :
  wc_from b (x ++ y) = (wc_from b x + wc_from (ends_inword b x) y)%nat.
Proof.
  revert b; induction x as [|c x IH]; intros b.
  - reflexivity.
  - rewrite ends_inword_cons. simpl. destruct (isspace c); simpl.
    + apply IH.
    + rewrite IH. lia.
Qed.

Lemma wc_prefix (x y : str) : (wc_from false x <= wc_from false (x ++ y))%nat.
Proof. rewrite wc_from_app. lia. Qed.

Lemma wc_le_length (b : bool) (s : str) : (wc_from b s <= length s)%nat.
Proof.
  revert b; induction s as [|c s IH]; intros b; simpl; [lia|].
  destruct (isspace c).
  - specialize (IH false). lia.
  - specialize (IH true). destruct b; lia.
Qed.

(** ** Stripping *)

Lemma drop_while_suffix (p : char -> bool) (s : str) :
  exists a, s = a ++ drop_while p s /\ forallb p a = true.
Proof.
  induction s as [|c s [a [E F]]]; simpl.
  - exists []; split; reflexivity.
  - destruct (p c) eqn:P.
    + exists (c :: a); simpl; rewrite P, F. split; [f_equal; exact E | reflexivity].
    + exists []; split; reflexivity.
Qed.

Lemma drop_while_head (p : char -> bool) (s : str) (c : char) (r : str) :
  drop_while p s = c :: r -> p c = false.
Proof.
  induction s as [|d s IH]; simpl; [discriminate|].
  destruct (p d) eqn:P; [exact IH|]. intros E; inversion E; subst; exact P.
Qed.

Lemma rstrip_by_prefix (p : char -> bool) (s : str) :
  exists t, s = rstrip_by p s ++ t.
Proof.
  unfold rstrip_by. destruct (drop_while_suffix p (rev s)) as [a [E _]].
  exists (rev a). rewrite <- rev_app_distr, <- E, rev_involutive. reflexivity.
Qed.

Lemma rstrip_by_last (p : char -> bool) (s : str) :
  match rev (rstrip_by p s) with
  | [] => True
  | c :: _ => p c = false
  end.
Proof.
  unfold rstrip_by. rewrite rev_involutive.
  destruct (drop_while p (rev s)) eqn:E; [exact I|].
  eapply drop_while_head; exact E.
Qed.

Lemma length_drop_while (p : char -> bool) (s : str) :
  (length (drop_while p s) <= length s)%nat.
Proof.
  induction s as [|c s IH]; simpl; [lia|]. destruct (p c); simpl; lia.
Qed.

Lemma length_rstrip_by (p : char -> bool) (s : str) :
  (length (rstrip_by p s) <= length s)%nat.
Proof.
  unfold rstrip_by. rewrite length_rev.
  etransitivity; [apply length_drop_while|]. rewrite length_rev; lia.
Qed.

Lemma length_strip (s : str) : (length (strip s) <= length s)%nat.
Proof.
  unfold strip, strip_by, lstrip_by.
  etransitivity; [apply length_rstrip_by | apply length_drop_while].
Qed.

Lemma wc_drop_spaces (s : str) :
  wc_from false (drop_while isspace s) = wc_from false s.
Proof.
  induction s as [|c s IH]; simpl; [reflexivity|].
  destruct (isspace c) eqn:E; [exact IH|]. simpl. rewrite E. reflexivity.
Qed.

Lemma wc_rstrip_by (p : char -> bool) (s : str) :
  (wc_from false (rstrip_by p s) <= wc_from false s)%nat.
Proof.
  destruct (rstrip_by_prefix p s) as [t E].
  rewrite E at 2. apply wc_prefix.
Qed.

Lemma wc_strip (s : str) : (wc_from false (strip s) <= wc_from false s)%nat.
Proof.
  unfold strip, strip_by, lstrip_by.
  etransitivity; [apply wc_rstrip_by|]. rewrite wc_drop_spaces. lia.
Qed.

Lemma wc_period (b : bool) :
  wc_from b (lit ".") = if b then 0%nat else 1%nat.
Proof. destruct b; reflexivity. Qed.

(** A period after stripped text starts a word only when the text is empty. *)
Lemma wc_strip_period (s : str) :
  (wc_from false (strip s ++ lit ".") <= Nat.max 1 (wc_from false s))%nat.
Proof.
  pose proof (wc_strip s) as L.
  rewrite wc_from_app, wc_period.
  pose proof (rstrip_by_last isspace (lstrip_by isspace s)) as H.
  fold (strip_by isspace s) in H. fold (strip s) in H.
  unfold ends_inword. destruct (rev (strip s)) as [|c r] eqn:E.
  - apply (f_equal (@rev char)) in E. rewrite rev_involutive in E. simpl in E.
    rewrite E. cbn [wc_from]. lia.
  - rewrite H. cbn [negb]. lia.
Qed.

(** ** Splitting and joining *)

Lemma forallb_rev (p : char -> bool) (s : str) :
  forallb p (rev s) = forallb p s.
Proof.
  induction s as [|c s IH]; simpl; [reflexivity|].
  rewrite forallb_app, IH. simpl. rewrite andb_true_r. apply andb_comm.
Qed.

Lemma nonempty_rev (s : str) : nonempty (rev s) = nonempty s.
Proof.
  destruct s as [|c s]; [reflexivity|]. simpl.
  destruct (rev s); reflexivity.
Qed.

Lemma split_aux_words (s cur : str) :
  forallb nonspace cur = true -> Forall (fun w => is_word w = true) (split_aux cur s).
Proof.
  revert cur; induction s as [|c s IH]; intros cur Hcur; simpl.
  - destruct cur as [|d cur]; constructor; [|constructor].
    unfold is_word. rewrite nonempty_rev, forallb_rev, Hcur. reflexivity.
  - destruct (isspace c) eqn:E.
    + destruct cur as [|d cur]; [apply IH; reflexivity|].
      constructor; [|apply IH; reflexivity].
      unfold is_word. rewrite nonempty_rev, forallb_rev, Hcur. reflexivity.
    + apply IH. simpl. unfold nonspace at 1. rewrite E. exact Hcur.
Qed.

Lemma split_words (s : str) : Forall (fun w => is_word w = true) (split s).
Proof. apply split_aux_words. reflexivity. Qed.

Lemma split_aux_app_word (w cur s : str) :
  forallb nonspace w = true ->
  split_aux cur (w ++ s) = split_aux (rev w ++ cur) s.
Proof.
  revert cur; induction w as [|c w IH]; intros cur H; [reflexivity|].
  simpl in H. apply andb_true_iff in H as [Hc Hw].
  unfold nonspace in Hc. apply negb_true_iff in Hc.
  simpl. rewrite Hc, IH by exact Hw. rewrite <- app_assoc. reflexivity.
Qed.

Lemma split_join (ws : list str) :
  Forall (fun w => is_word w = true) ws -> split (join (lit " ") ws) = ws.
Proof.
  induction 1 as [|w ws Hw Hws IH]; [reflexivity|].
  unfold is_word in Hw. apply andb_true_iff in Hw as [Hne Hns].
  unfold split in *. destruct ws as [|w2 ws].
  - simpl. rewrite <- (app_nil_r w) at 1.
    rewrite split_aux_app_word by exact Hns. simpl. rewrite app_nil_r.
    destruct (rev w) eqn:E.
    + rewrite <- nonempty_rev, E in Hne. discriminate.
    + rewrite <- E, rev_involutive. reflexivity.
  - change (join (lit " ") (w :: w2 :: ws))
      with (w ++ 32 :: join (lit " ") (w2 :: ws)).
    rewrite split_aux_app_word by exact Hns. rewrite app_nil_r.
    cbn [split_aux]. change (isspace 32) with true. cbv iota.
    destruct (rev w) eqn:E.
    + rewrite <- nonempty_rev, E in Hne. discriminate.
    + rewrite <- E, rev_involutive, IH. reflexivity.
Qed.

Lemma Forall_firstn_words {A : Type} (P : A -> Prop) (n : nat) (ws : list A) :
  Forall P ws -> Forall P (firstn n ws).
Proof.
  intros H; revert n; induction H as [|w ws Hw _ IH]; intros [|n]; simpl;
    constructor; auto.
Qed.

(** ** The word limit of [clean_caption] *)

Section CleanCaptionWords.

Import clean_and_prepare_captions.

Variable upper : char -> str.

(** Upper-casing keeps white space white space and turns no other
    character into white space. *)
Hypothesis upper_isspace :
  forall c, Forall (fun d => isspace d = isspace c) (upper c).

Lemma body_word_limit (caption : str) :
  (wc_from false (body caption) <= MAX_CAPTION_WORDS)%nat.
Proof.
  unfold body.
  set (c := strip_chars _ _).
  destruct (MAX_CAPTION_WORDS <? length (split c))%nat eqn:E.
  - rewrite <- split_length, split_join.
    + rewrite length_firstn. lia.
    + apply Forall_firstn_words, split_words.
  - apply Nat.ltb_ge in E. rewrite <- split_length. exact E.
Qed.

Lemma wc_spaces_prefix (u rest : str) :
  Forall (fun d => isspace d = true) u ->
  wc_from false (u ++ rest) = wc_from false rest.
Proof.
  induction 1 as [|d u Hd _ IH]; simpl; [reflexivity|]. rewrite Hd. exact IH.
Qed.

Lemma wc_word_prefix (u rest : str) :
  Forall (fun d => isspace d = false) u ->
  wc_from true (u ++ rest) = wc_from true rest.
Proof.
  induction 1 as [|d u Hd _ IH]; simpl; [reflexivity|]. rewrite Hd. exact IH.
Qed.

Lemma capitalize_word_count (caption : str) :
  (wc_from false (capitalize upper caption) <= wc_from false caption)%nat.
Proof.
  destruct caption as [|c rest]; simpl; [lia|].
  pose proof (upper_isspace c) as H.
  destruct (isspace c) eqn:E.
  - rewrite wc_spaces_prefix by exact H. lia.
  - destruct H as [|d u Hd Hu]; simpl.
    + pose proof (wc_from_bounds rest). lia.
    + rewrite Hd, wc_word_prefix by exact Hu. lia.
Qed.

Lemma clean_caption_word_limit (caption : str) :
  (length (split (clean_caption upper caption)) <= MAX_CAPTION_WORDS)%nat.
Proof.
  rewrite split_length. unfold clean_caption.
  pose proof (wc_strip_period
                (rstrip_chars (lit ",") (capitalize upper (body caption)))) as H1.
  pose proof (wc_rstrip_by (in_set (lit ","))
                (capitalize upper (body caption))) as H2.
  fold (rstrip_chars (lit ",") (capitalize upper (body caption))) in H2.
  pose proof (capitalize_word_count (body caption)) as H3.
  pose proof (body_word_limit caption) as H4.
  unfold MAX_CAPTION_WORDS in *. lia.
Qed.

End CleanCaptionWords.

Lemma process_all_clean_caption_length (text : str) :
  (length (process_all_captions.clean_caption text) <= 300)%nat.
Proof.
  unfold process_all_captions.clean_caption.
  destruct text as [|c text]; [simpl; lia|].
  set (t := re_sub _ _ _).
  etransitivity; [apply length_strip|].
  destruct (300 <? length t)%nat eqn:E.
  - rewrite length_firstn. lia.
  - apply Nat.ltb_ge in E. exact E.
Qed.

Lemma upper_ascii_isspace (c : char) :
  Forall (fun d => isspace d = isspace c) (upper_ascii c).
Proof.
  unfold upper_ascii. destruct (is_ascii_lower c) eqn:E; constructor; auto.
  unfold is_ascii_lower, in_range in E. apply andb_true_iff in E as [E1 E2].
  apply N.leb_le in E1, E2.
  assert (H : forall x, 65 <= x <= 122 -> isspace x = false).
  { intros x Hx. unfold isspace, in_range.
    repeat match goal with
           | |- context [?a <=? ?b] =>
               let F := fresh in destruct (N.leb_spec a b) as [F|F]
           | |- context [?a =? ?b] =>
               let F := fresh in destruct (N.eqb_spec a b) as [F|F]
           end; try reflexivity; lia. }
  rewrite (H c) by lia. apply H. lia.
Qed.

(** C1. For every caption the cleaned caption of
    [clean_and_prepare_captions.clean_caption] has at most
    [MAX_CAPTION_WORDS] = 30 words, and the cleaned caption of
    [process_all_captions.clean_caption], whose limit counts characters, has
    at most 300 characters and so at most 300 words. *)
Theorem clean_caption_within_limit (upper : char -> str) :
  (forall c, Forall (fun d => isspace d = isspace c) (upper c)) ->
  forall caption : str,
    (length (split (clean_and_prepare_captions.clean_caption upper caption))
     <= clean_and_prepare_captions.MAX_CAPTION_WORDS)%nat
    /\ clean_and_prepare_captions.MAX_CAPTION_WORDS = 30%nat
    /\ (length (process_all_captions.clean_caption caption) <= 300)%nat
    /\ (length (split (process_all_captions.clean_caption caption)) <= 300)%nat.
Proof.
  intros Hup caption. repeat split.
  - apply clean_caption_word_limit, Hup.
  - apply process_all_clean_caption_length.
  - rewrite split_length.
    etransitivity; [apply wc_le_length | apply process_all_clean_caption_length].
Qed.

(* C1 witness on a caption of thirty-one words. *)
Lemma clean_caption_within_limit_witness :
  let caption :=
    lit "a b c d e f g h i j k l m n o p q r s t u v w x y z a b c d e" in
  (length (split (clean_and_prepare_captions.clean_caption upper_ascii caption))
   <= clean_and_prepare_captions.MAX_CAPTION_WORDS)%nat
  /\ clean_and_prepare_captions.MAX_CAPTION_WORDS = 30%nat
  /\ (length (process_all_captions.clean_caption caption) <= 300)%nat
  /\ (length (split (process_all_captions.clean_caption caption)) <= 300)%nat.
Proof.
  intros caption.
  exact (clean_caption_within_limit upper_ascii upper_ascii_isspace caption).
Defined.

(** ** Matching images and captions *)

Lemma str_eqb_eq (a b : str) : str_eqb a b = true <-> a = b.
Proof.
  unfold str_eqb. destruct (list_eq_dec N.eq_dec a b); split; auto; discriminate.
Qed.

Lemma str_eqb_neq (a b : str) : str_eqb a b = false <-> a <> b.
Proof.
  unfold str_eqb. destruct (list_eq_dec N.eq_dec a b); split; auto;
    try discriminate; contradiction.
Qed.

Lemma find_first {A : Type} (p : A -> bool) (l : list A) (x : A) :
  find p l = Some x <->
  exists pre post,
    l = pre ++ x :: post /\ p x = true /\ Forall (fun y => p y = false) pre.
Proof.
  induction l as [|y l IH]; simpl.
  - split; [discriminate|]. intros (pre & post & E & _). destruct pre; discriminate.
  - destruct (p y) eqn:Py.
    + split.
      * intros E; inversion E; subst. exists [], l. repeat split; auto.
      * intros (pre & post & E & Px & Hpre). destruct pre as [|z pre].
        -- inversion E; reflexivity.
        -- inversion E; subst. inversion Hpre; subst. congruence.
    + rewrite IH. split.
      * intros (pre & post & E & Px & Hpre).
        exists (y :: pre), post. subst. repeat split; auto.
      * intros (pre & post & E & Px & Hpre). destruct pre as [|z pre].
        -- inversion E; subst. congruence.
        -- inversion E; subst. inversion Hpre; subst.
           exists pre, post. repeat split; auto.
Qed.

Lemma find_none_iff {A : Type} (p : A -> bool) (l : list A) :
  find p l = None <-> Forall (fun y => p y = false) l.
Proof.
  induction l as [|y l IH]; simpl.
  - split; auto.
  - destruct (p y) eqn:Py.
    + split; [discriminate|]. intros H; inversion H; congruence.
    + rewrite IH. split; [constructor; auto|]. intros H; inversion H; auto.
Qed.

Section Matching.

Import process_all_captions.

Lemma same_stem_true (cap img : path) :
  same_stem cap img = true <-> stem_of img = stem_of cap.
Proof. unfold same_stem. apply str_eqb_eq. Qed.

Lemma same_stem_false (cap img : path) :
  same_stem cap img = false <-> stem_of img <> stem_of cap.
Proof. unfold same_stem. apply str_eqb_neq. Qed.

Lemma match_images_captions_find (caps imgs : list path) (img cap : path) :
  In (img, cap) (match_images_captions caps imgs) <->
  In cap caps /\ first_image cap imgs = Some img.
Proof.
  unfold match_images_captions. rewrite in_flat_map. split.
  - intros (c & Hc & Hin).
    destruct (first_image c imgs) as [i|] eqn:F; [|contradiction].
    destruct Hin as [E|[]]. inversion E; subst. auto.
  - intros (Hc & F). exists cap. rewrite F. split; [exact Hc | left; reflexivity].
Qed.

(** A pair is produced exactly when the image is the first of the list with
    the stem of the caption. *)
Lemma match_images_captions_first (caps imgs : list path) (img cap : path) :
  In (img, cap) (match_images_captions caps imgs) <->
  In cap caps /\
  exists pre post,
    imgs = pre ++ img :: post /\ stem_of img = stem_of cap /\
    Forall (fun x => stem_of x <> stem_of cap) pre.
Proof.
  rewrite match_images_captions_find. unfold first_image. rewrite find_first.
  split; intros (Hc & pre & post & E & S & Hpre); (split; [exact Hc|]);
    exists pre, post; repeat split; auto.
  - apply same_stem_true; exact S.
  - eapply Forall_impl; [|exact Hpre]. intros x; apply same_stem_false.
  - apply same_stem_true; exact S.
  - eapply Forall_impl; [|exact Hpre]. intros x; apply same_stem_false.
Qed.

(** With one image per stem, pairing is equality of stems. *)
Lemma match_images_captions_unique (caps imgs : list path) (img cap : path) :
  (forall i j, In i imgs -> In j imgs -> stem_of i = stem_of j -> i = j) ->
  In (img, cap) (match_images_captions caps imgs) <->
  In cap caps /\ In img imgs /\ stem_of img = stem_of cap.
Proof.
  intros U. rewrite match_images_captions_find. unfold first_image. split.
  - intros (Hc & F). apply find_some in F as [Hi S].
    repeat split; auto. apply same_stem_true; exact S.
  - intros (Hc & Hi & S). split; [exact Hc|].
    destruct (find (same_stem cap) imgs) as [i|] eqn:F.
    + apply find_some in F as [Hi' S']. apply same_stem_true in S'.
      f_equal. apply U; auto. congruence.
    + apply find_none_iff in F. rewrite Forall_forall in F.
      specialize (F img Hi). apply same_stem_false in F. contradiction.
Qed.

End Matching.

Lemma name_of_child (d : path) (n : str) : name_of (d ++ [n]) = n.
Proof. unfold name_of. apply last_last. Qed.

Lemma find_image_files_listed (d : path) (w : world) :
  exists imgs,
    process_all_captions.find_image_files d w = (Ok imgs, w) /\
    forall img, In img imgs ->
      exists ext n,
        In ext process_all_captions.IMAGE_PATTERNS /\ img = d ++ [n] /\
        ends_with ext n = true /\ In n (listdir w d).
Proof.
  unfold process_all_captions.find_image_files, bind, exists_.
  destruct (path_exists w d).
  - cbn [process_all_captions.IMAGE_PATTERNS for_each bind glob ret].
    eexists; split; [reflexivity|].
    intros img H.
    repeat (apply in_app_or in H; destruct H as [H|H]);
      try contradiction;
      unfold glob_suffix in H; apply in_map_iff in H as (n & E & Hn);
      apply filter_In in Hn as [Hl He];
      eexists _, n; (split; [|split; [symmetry; exact E | split; [exact He | exact Hl]]]);
      unfold process_all_captions.IMAGE_PATTERNS; simpl; tauto.
  - exists []. split; [reflexivity|]. intros img [].
Qed.

(** The extension loop of [clean_and_prepare_captions.main]: the first
    extension of the list under which the image exists. *)
Lemma find_image_first (image_name : str) (exts : list str) (w : world) :
  exists r,
    clean_and_prepare_captions.find_image image_name exts w = (Ok r, w) /\
    match r with
    | Some (p, filename) =>
        exists pre ext post,
          exts = pre ++ ext :: post /\ filename = image_name ++ ext /\
          p = clean_and_prepare_captions.IMAGE_DIR ++ [filename] /\
          path_exists w p = true /\
          Forall (fun e => path_exists w
                             (clean_and_prepare_captions.IMAGE_DIR
                                ++ [image_name ++ e]) = false) pre
    | None =>
        Forall (fun e => path_exists w
                           (clean_and_prepare_captions.IMAGE_DIR
                              ++ [image_name ++ e]) = false) exts
    end.
Proof.
  induction exts as [|ext exts (r & E & H)];
    cbn [clean_and_prepare_captions.find_image].
  - exists None. split; [reflexivity | constructor].
  - unfold bind, exists_.
    destruct (path_exists w _) eqn:P.
    + eexists; split; [reflexivity|]. cbv beta iota.
      exists [], ext, exts. repeat split; auto.
    + rewrite E. exists r. split; [reflexivity|].
      destruct r as [[p filename]|].
      * destruct H as (pre & e & post & E1 & E2 & E3 & E4 & E5).
        exists (ext :: pre), e, post. subst. repeat split; auto.
      * constructor; auto.
Qed.

(** C3, as the code has it.  [match_images_captions] pairs a caption with
    the first image of the list whose stem is, as a case-sensitive string, the
    stem of the caption, and with no other image; with one image per stem a
    pair is produced exactly when the stems are equal, which does not depend
    on the side searched from.  The images [find_image_files] lists have a name
    ending in one of the listed extensions, and the loop of
    [clean_and_prepare_captions] takes the first listed extension under which
    an image of the caption's stem exists. *)
Theorem matching_first_image_wins :
  (forall caps imgs img cap,
      In (img, cap) (process_all_captions.match_images_captions caps imgs) <->
      In cap caps /\
      exists pre post,
        imgs = pre ++ img :: post /\ stem_of img = stem_of cap /\
        Forall (fun x => stem_of x <> stem_of cap) pre)
  /\ (forall caps imgs img cap,
      (forall i j, In i imgs -> In j imgs -> stem_of i = stem_of j -> i = j) ->
      In (img, cap) (process_all_captions.match_images_captions caps imgs) <->
      In cap caps /\ In img imgs /\ stem_of img = stem_of cap)
  /\ (forall d w,
      exists imgs,
        process_all_captions.find_image_files d w = (Ok imgs, w) /\
        forall img, In img imgs ->
          exists ext,
            In ext process_all_captions.IMAGE_PATTERNS /\
            ends_with ext (name_of img) = true)
  /\ (forall caption_file w,
      exists r,
        clean_and_prepare_captions.find_image (stem_of caption_file)
          clean_and_prepare_captions.EXTENSIONS w = (Ok r, w) /\
        match r with
        | Some (p, filename) =>
            exists pre ext post,
              clean_and_prepare_captions.EXTENSIONS = pre ++ ext :: post /\
              filename = stem_of caption_file ++ ext /\
              p = clean_and_prepare_captions.IMAGE_DIR ++ [filename] /\
              path_exists w p = true /\
              Forall (fun e => path_exists w
                                 (clean_and_prepare_captions.IMAGE_DIR
                                    ++ [stem_of caption_file ++ e]) = false) pre
        | None =>
            Forall (fun e => path_exists w
                               (clean_and_prepare_captions.IMAGE_DIR
                                  ++ [stem_of caption_file ++ e]) = false)
                   clean_and_prepare_captions.EXTENSIONS
        end).
Proof.
  split; [|split; [|split]].
  - apply match_images_captions_first.
  - intros caps imgs img cap U. apply match_images_captions_unique, U.
  - intros d w. destruct (find_image_files_listed d w) as (imgs & E & H).
    exists imgs. split; [exact E|]. intros img Hi.
    destruct (H img Hi) as (ext & n & He & Ei & En & _).
    exists ext. subst img. rewrite name_of_child. auto.
  - intros caption_file w. apply find_image_first.
Qed.

(* C3 witness: one image per stem. *)
Lemma matching_first_image_wins_witness :
  let jpg := image_file "a.jpg" in
  let txt := text_file "a.txt" in
  In (jpg, txt) (process_all_captions.match_images_captions [txt] [jpg]) <->
  In txt [txt] /\ In jpg [jpg] /\ stem_of jpg = stem_of txt.
Proof.
  intros jpg txt.
  apply (proj1 (proj2 matching_first_image_wins) [txt] [jpg] jpg txt).
  intros i j [Hi|[]] [Hj|[]] _. congruence.
Defined.

(** C3 as stated fails: [a.png] has the stem of [a.txt] and a listed
    extension, yet the pair is not produced, because [a.jpg] comes first. *)
Lemma matching_second_image_unmatched :
  let w := world_two_images in
  let png := image_file "a.png" in
  let txt := text_file "a.txt" in
  exists imgs caps,
    process_all_captions.find_image_files images_dir w = (Ok imgs, w)
    /\ process_all_captions.find_caption_files text_dir w = (Ok caps, w)
    /\ In png imgs /\ In txt caps
    /\ stem_of png = stem_of txt
    /\ ends_with (lit ".png") (name_of png) = true
    /\ In (lit ".png") process_all_captions.IMAGE_PATTERNS
    /\ ~ In (png, txt) (process_all_captions.match_images_captions caps imgs).
Proof.
  intros w png txt.
  exists [image_file "a.jpg"; png], [txt].
  repeat split; try (vm_compute; tauto); try reflexivity.
  vm_compute. intros [H|[]]. discriminate H.
Qed.

(** ** The caption generator *)

(** C9. [make_criminal_style_caption] depends on the attribute list alone:
    two calls with the same attributes and any two base captions return the
    same caption. *)
Theorem make_criminal_style_caption_ignores_base
    (base1 base2 : str) (attributes : list str) :
  caption_generator_finetuned.make_criminal_style_caption base1 attributes
  = caption_generator_finetuned.make_criminal_style_caption base2 attributes.
Proof. reflexivity. Qed.

(** ** The shape of a cleaned caption *)

Lemma clean_caption_ends_with_period (upper : char -> str) (caption : str) :
  exists x,
    clean_and_prepare_captions.clean_caption upper caption = x ++ lit "."
    /\ clean_and_prepare_captions.clean_caption upper caption <> [].
Proof.
  unfold clean_and_prepare_captions.clean_caption.
  eexists; split; [reflexivity|].
  intros E. apply (f_equal (@length char)) in E.
  rewrite length_app in E. simpl in E. lia.
Qed.

Lemma clean_caption_empty_body (upper : char -> str) (caption : str) :
  clean_and_prepare_captions.body caption = [] ->
  clean_and_prepare_captions.clean_caption upper caption = lit ".".
Proof.
  intros E. unfold clean_and_prepare_captions.clean_caption. rewrite E.
  reflexivity.
Qed.

(** C10 at its failing input.  The caption has thirty-one words and the
    thirtieth is [d.]: the cut after thirty words leaves the period of that
    word at the end, [rstrip(',')] does not remove it, and the period that is
    added makes two.  Every cleaned caption is non-empty and ends in a period,
    and a caption of punctuation alone becomes a lone period. *)
Theorem clean_caption_double_period :
  clean_and_prepare_captions.clean_caption upper_ascii caption_31_words
  = lit "A b c d e f g h i j k l m n o p q r s t u v w x y z a b c d.."
  /\ ends_with (lit "..")
       (clean_and_prepare_captions.clean_caption upper_ascii caption_31_words)
     = true
  /\ (forall upper caption,
        exists x,
          clean_and_prepare_captions.clean_caption upper caption = x ++ lit "."
          /\ clean_and_prepare_captions.clean_caption upper caption <> [])
  /\ clean_and_prepare_captions.clean_caption upper_ascii (lit " ., ") = lit ".".
Proof.
  split; [vm_compute; reflexivity|].
  split; [vm_compute; reflexivity|].
  split; [apply clean_caption_ends_with_period | vm_compute; reflexivity].
Qed.

(** ** The primitives *)

Ltac break_match :=
  match goal with
  | |- context [match ?x with _ => _ end] => destruct x eqn:?
  end.

Ltac io_cases := simpl; repeat (break_match; simpl); auto.

(** What a primitive leaves as it was. *)
Lemma read_text_world (p : path) (enc : encoding) (w : world) :
  snd (read_text p enc w) = record_event (EvOpenRead p enc) w.
Proof. unfold read_text. io_cases. Qed.

Lemma read_text_result (p : path) (enc : encoding) (w : world) :
  fst (read_text p enc w)
  = match stat (entries w) p with
    | Some (File data) =>
        match decode enc data with
        | Some s => Ok (universal_newlines s)
        | None => Raise UnicodeDecodeError
        end
    | _ => Raise OSError
    end.
Proof. unfold read_text. io_cases. Qed.

Lemma write_text_frame (p : path) (s : str) (w : world) :
  let w' := snd (write_text p s w) in
  stdout w' = stdout w /\ stdin w' = stdin w
  /\ symlinks_allowed w' = symlinks_allowed w
  /\ trace w' = trace w ++ [EvOpenWrite p].
Proof. unfold write_text. io_cases. Qed.

Lemma symlink_frame (src dst : path) (w : world) :
  let w' := snd (symlink src dst w) in
  stdout w' = stdout w /\ stdin w' = stdin w
  /\ symlinks_allowed w' = symlinks_allowed w
  /\ trace w' = trace w ++ [EvSymlink src dst].
Proof. unfold symlink. io_cases. Qed.

Lemma copy2_frame (src dst : path) (w : world) :
  let w' := snd (copy2 src dst w) in
  stdout w' = stdout w /\ stdin w' = stdin w
  /\ symlinks_allowed w' = symlinks_allowed w
  /\ trace w' = trace w ++ [EvCopy src dst].
Proof. unfold copy2. io_cases. Qed.

Lemma link_or_copy_frame (src dst : path) (w : world) :
  let w' := snd (link_or_copy src dst w) in
  stdout w' = stdout w /\ stdin w' = stdin w
  /\ symlinks_allowed w' = symlinks_allowed w
  /\ (trace w' = trace w
      \/ trace w' = trace w ++ [EvSymlink src dst]
      \/ trace w' = trace w ++ [EvSymlink src dst; EvCopy src dst]).
Proof.
  unfold link_or_copy, bind, exists_, try_except, ret.
  destruct (path_exists w dst); simpl; [tauto|].
  pose proof (symlink_frame src dst w) as (H1 & H2 & H3 & H4).
  destruct (symlink src dst w) as [[[]|e] w1]; simpl in *; [tauto|].
  pose proof (copy2_frame src dst w1) as (K1 & K2 & K3 & K4).
  simpl in *. rewrite K1, K2, K3, K4, H1, H2, H3, H4, <- app_assoc.
  simpl. tauto.
Qed.

Lemma record_event_fields (e : event) (w : world) :
  entries (record_event e w) = entries w
  /\ stdout (record_event e w) = stdout w
  /\ stdin (record_event e w) = stdin w
  /\ symlinks_allowed (record_event e w) = symlinks_allowed w
  /\ trace (record_event e w) = trace w ++ [e].
Proof. repeat split. Qed.

(** ** Counting per file *)

Section CleanAndPrepareLoop.

Import clean_and_prepare_captions.

Variable upper : char -> str.

(** One turn of the first loop never raises, prints nothing, reads the
    caption file at most once, and either appends one record and counts it as
    matched or counts the file as skipped. *)
Lemma process_caption_file_step (caption_file : path) (st : counters) (w : world) :
  exists st' w',
    process_caption_file upper caption_file st w = (Ok st', w')
    /\ (w' = w \/ w' = record_event (EvOpenRead caption_file utf_8) w)
    /\ ((matched_count st' = S (matched_count st)
         /\ skipped_count st' = skipped_count st
         /\ exists image_id original,
             results st' = results st ++
               [[(lit "image_id", image_id);
                 (lit "original_caption", original);
                 (lit "cleaned_caption", clean_caption upper original)]])
        \/ st' = skip st).
Proof.
  unfold process_caption_file, bind.
  destruct (find_image_first (stem (name_of caption_file)) EXTENSIONS w)
    as (r & E & _).
  rewrite E. destruct r as [[p filename]|].
  - unfold try_except, bind.
    pose proof (read_text_world caption_file utf_8 w) as W.
    destruct (read_text caption_file utf_8 w) as [[text|e] w1]; simpl in W; subst w1.
    + destruct (length (strip text) <? 5)%nat; unfold ret.
      * eexists _, _. split; [reflexivity|]. split; [right; reflexivity|].
        right; reflexivity.
      * eexists _, _. split; [reflexivity|]. split; [right; reflexivity|].
        left. simpl. repeat split. eexists _, _. reflexivity.
    + unfold ret. eexists _, _. split; [reflexivity|].
      split; [right; reflexivity | right; reflexivity].
  - unfold ret. eexists _, _. split; [reflexivity|].
    split; [left; reflexivity | right; reflexivity].
Qed.

Lemma matching_loop (caption_files : list path) (st : counters) (w : world) :
  exists st' w',
    for_each caption_files (process_caption_file upper) st w = (Ok st', w')
    /\ stdout w' = stdout w
    /\ entries w' = entries w
    /\ (matched_count st' + skipped_count st'
        = matched_count st + skipped_count st + length caption_files)%nat.
Proof.
  revert st w; induction caption_files as [|f files IH]; intros st w; simpl.
  - exists st, w. repeat split; auto; lia.
  - unfold bind.
    destruct (process_caption_file_step f st w) as (st1 & w1 & E & W & C).
    rewrite E.
    destruct (IH st1 w1) as (st2 & w2 & E2 & O2 & F2 & C2).
    exists st2, w2. rewrite E2. split; [reflexivity|].
    assert (stdout w1 = stdout w /\ entries w1 = entries w) as [O1 F1].
    { destruct W; subst; split; reflexivity. }
    split; [congruence|]. split; [congruence|].
    destruct C as [(M & S & _)|C]; [|subst st1; simpl in C2]; lia.
Qed.


End CleanAndPrepareLoop.

Lemma quiet_refl (w : world) : quiet w w.
Proof. repeat split. Qed.

Lemma quiet_trans (w1 w2 w3 : world) : quiet w1 w2 -> quiet w2 w3 -> quiet w1 w3.
Proof.
  intros (A1 & A2 & A3) (B1 & B2 & B3). repeat split; congruence.
Qed.

Section ProcessAllLoop.

Import process_all_captions.

(** [read_caption_file] opens the file once per encoding, in the order of
    the list, and stops at the first encoding that reads it. *)
Lemma read_caption_file_with_spec (encs : list encoding) (p : path) (w : world) :
  exists r k w',
    read_caption_file_with encs p w = (Ok r, w')
    /\ entries w' = entries w /\ quiet w w'
    /\ trace w' = trace w ++ List.map (EvOpenRead p) (firstn k encs)
    /\ (k <= length encs)%nat
    /\ (encs <> [] -> 1 <= k)%nat
    /\ match r with
       | Some text =>
           exists enc data s,
             nth_error encs (Nat.pred k) = Some enc
             /\ stat (entries w) p = Some (File data)
             /\ decode enc data = Some s /\ text = universal_newlines s
       | None => k = length encs
       end.
Proof.
  revert w; induction encs as [|enc encs IH]; intros w; simpl.
  - exists None, 0%nat, w. repeat split; auto.
    + rewrite app_nil_r; reflexivity.
    + intros H; contradiction.
  - unfold try_except, bind.
    pose proof (read_text_world p enc w) as W.
    pose proof (read_text_result p enc w) as R.
    destruct (read_text p enc w) as [[text|e] w1]; simpl in W, R; subst w1.
    + exists (Some text), 1%nat, (record_event (EvOpenRead p enc) w).
      split; [reflexivity|]. repeat split; try lia.
      simpl. destruct (stat (entries w) p) as [[data| |t]|]; try discriminate.
      destruct (decode enc data) as [s|] eqn:D; try discriminate.
      inversion R; subst. exists enc, data, s. repeat split; auto.
    + destruct (IH (record_event (EvOpenRead p enc) w))
        as (r & k & w' & E & F & (Q1 & Q2 & Q3) & T & K & K1 & Hr).
      exists r, (S k), w'. split; [exact E|].
      split; [exact F|]. split; [repeat split; assumption|].
      split; [rewrite T; simpl; rewrite <- app_assoc; reflexivity|].
      split; [simpl; lia|]. split; [lia|].
      destruct r as [text|]; [|simpl; lia].
      destruct Hr as (enc' & data & s & N & St & D & Et).
      exists enc', data, s. repeat split; auto.
      destruct k as [|k]; simpl in *.
      * destruct encs; [discriminate|]. specialize (K1 ltac:(discriminate)). lia.
      * exact N.
Qed.

(** One turn of the loop of step 5 never raises, prints nothing, and either
    appends one record and counts a success or counts a failure. *)
Lemma process_pair_step (pair : path * path) (st : counters) (w : world) :
  exists st' w',
    process_pair pair st w = (Ok st', w')
    /\ quiet w w'
    /\ ((exists caption,
           st' = mkCounters
                   (results st ++
                      [[(lit "image_id", name_of (fst pair));
                        (lit "caption", caption)]])
                   (S (success st)) (failed st))
        \/ st' = fail st).
Proof.
  destruct pair as [img_file cap_file]. unfold process_pair, try_except, bind.
  unfold read_caption_file.
  destruct (read_caption_file_with_spec encodings cap_file w)
    as (r & k & w1 & E & _ & Q1 & _).
  rewrite E.
  destruct r as [[|c text]|]; unfold ret;
    try (eexists _, _; split; [reflexivity|]; split; [exact Q1 | right; reflexivity]).
  set (dst := output_dir ++ [name_of img_file]).
  pose proof (link_or_copy_frame img_file dst w1) as (L1 & L2 & L3 & _).
  destruct (link_or_copy img_file dst w1) as [[[]|e] w2]; simpl in L1, L2, L3.
  - set (txt := output_dir ++ [with_suffix (name_of img_file) (lit ".txt")]).
    set (cleaned := clean_caption (c :: text)).
    pose proof (write_text_frame txt cleaned w2) as (W1 & W2 & W3 & _).
    destruct (write_text txt cleaned w2) as [[[]|e] w3]; simpl in W1, W2, W3;
      eexists _, _; (split; [reflexivity|]);
      (split; [eapply quiet_trans; [exact Q1|]; repeat split; congruence|]).
    + left. exists cleaned. reflexivity.
    + right; reflexivity.
  - eexists _, _. split; [reflexivity|].
    split; [eapply quiet_trans; [exact Q1|]; repeat split; congruence|].
    right; reflexivity.
Qed.

Lemma processing_loop (matches : list (path * path)) (st : counters) (w : world) :
  exists st' w',
    for_each matches process_pair st w = (Ok st', w')
    /\ quiet w w'
    /\ (success st' + failed st' = success st + failed st + length matches)%nat.
Proof.
  revert st w; induction matches as [|pair matches IH]; intros st w; simpl.
  - exists st, w. split; [reflexivity|]. split; [apply quiet_refl | lia].
  - unfold bind.
    destruct (process_pair_step pair st w) as (st1 & w1 & E & Q & C).
    rewrite E.
    destruct (IH st1 w1) as (st2 & w2 & E2 & Q2 & C2).
    exists st2, w2. rewrite E2. split; [reflexivity|].
    split; [eapply quiet_trans; eassumption|].
    destruct C as [(caption & C)|C]; subst st1; simpl in C2; lia.
Qed.

Lemma processing_pass_report (matches : list (path * path)) (w : world) :
  exists st w',
    processing_pass matches w = (Ok st, w')
    /\ (success st + failed st = length matches)%nat
    /\ stdout w' = stdout w ++
         [PrSuccess (success st); PrFailed (failed st);
          PrTotal (length (results st))].
Proof.
  unfold processing_pass, bind.
  destruct (processing_loop matches (mkCounters [] 0 0) w)
    as (st & w1 & E & (O & _) & C).
  rewrite E. unfold report, bind, say. simpl.
  eexists _, _. split; [reflexivity|]. simpl in *. split; [lia|].
  rewrite O, <- !app_assoc. reflexivity.
Qed.

End ProcessAllLoop.



(** ** What a run adds to the trace *)

Section Appends.

Variable ok : event -> Prop.

Lemma appends_same {A} (m : IO A) :
  (forall w, trace (snd (m w)) = trace w) -> appends ok m.
Proof.
  intros H w. exists []. rewrite H, app_nil_r. split; [reflexivity | constructor].
Qed.

Lemma appends_one {A} (m : IO A) (e : event) :
  (forall w, trace (snd (m w)) = trace w ++ [e]) -> ok e -> appends ok m.
Proof.
  intros H He w. exists [e]. rewrite H. split; [reflexivity | repeat constructor; exact He].
Qed.

Lemma appends_ret {A} (a : A) : appends ok (ret a).
Proof. apply appends_same. reflexivity. Qed.

Lemma appends_raise {A} (e : exn) : appends ok (@raise A e).
Proof. apply appends_same. reflexivity. Qed.

Lemma appends_bind_val {A B} (m : IO A) (k : A -> IO B) (V : A -> Prop) :
  appends ok m -> yields m V -> (forall a, V a -> appends ok (k a)) ->
  appends ok (bind m k).
Proof.
  intros Hm Hv Hk w. unfold bind.
  destruct (Hm w) as (n1 & E1 & F1). specialize (Hv w).
  destruct (m w) as [[a|e] w1]; simpl in *.
  - destruct (Hk a (Hv a eq_refl) w1) as (n2 & E2 & F2).
    exists (n1 ++ n2). rewrite E2, E1, app_assoc.
    split; [reflexivity | apply Forall_app; auto].
  - exists n1. auto.
Qed.

Lemma appends_bind {A B} (m : IO A) (k : A -> IO B) :
  appends ok m -> (forall a, appends ok (k a)) -> appends ok (bind m k).
Proof.
  intros Hm Hk. apply (appends_bind_val m k (fun _ => True)); auto.
  intros w a _. exact I.
Qed.

Lemma appends_try_except {A} (m : IO A) (h : exn -> IO A) :
  appends ok m -> (forall e, appends ok (h e)) -> appends ok (try_except m h).
Proof.
  intros Hm Hh w. unfold try_except.
  destruct (Hm w) as (n1 & E1 & F1).
  destruct (m w) as [[a|e] w1]; simpl in *.
  - exists n1. auto.
  - destruct (Hh e w1) as (n2 & E2 & F2).
    exists (n1 ++ n2). rewrite E2, E1, app_assoc.
    split; [reflexivity | apply Forall_app; auto].
Qed.

Lemma appends_for_each {X St} (body : X -> St -> IO St) (xs : list X) :
  (forall x s, appends ok (body x s)) -> forall s, appends ok (for_each xs body s).
Proof.
  intros Hb. induction xs as [|x xs IH]; intros s; simpl.
  - apply appends_ret.
  - apply appends_bind; [apply Hb | exact IH].
Qed.

Lemma appends_say (l : line) : appends ok (say l).
Proof. apply appends_same. reflexivity. Qed.

Lemma appends_exists (p : path) : appends ok (exists_ p).
Proof. apply appends_same. reflexivity. Qed.

Lemma appends_glob (d : path) (ext : str) : appends ok (glob d ext).
Proof. apply appends_same. reflexivity. Qed.

Lemma appends_rglob (d : path) (ext : str) : appends ok (rglob d ext).
Proof. apply appends_same. reflexivity. Qed.

Lemma appends_input : appends ok input.
Proof. apply appends_same. intros w. unfold input. destruct (stdin w); reflexivity. Qed.

Lemma appends_makedirs (p : path) : appends ok (makedirs p).
Proof. apply appends_same. intros w. unfold makedirs. io_cases. Qed.

Lemma appends_read_text (p : path) (enc : encoding) :
  ok (EvOpenRead p enc) -> appends ok (read_text p enc).
Proof.
  apply appends_one. intros w. rewrite read_text_world. reflexivity.
Qed.

Lemma appends_write_text (p : path) (s : str) :
  ok (EvOpenWrite p) -> appends ok (write_text p s).
Proof. apply appends_one. intros w. apply write_text_frame. Qed.

Lemma appends_symlink (src dst : path) :
  ok (EvSymlink src dst) -> appends ok (symlink src dst).
Proof. apply appends_one. intros w. apply symlink_frame. Qed.

Lemma appends_copy2 (src dst : path) :
  ok (EvCopy src dst) -> appends ok (copy2 src dst).
Proof. apply appends_one. intros w. apply copy2_frame. Qed.

Lemma appends_link_or_copy (src dst : path) :
  ok (EvSymlink src dst) -> ok (EvCopy src dst) ->
  appends ok (link_or_copy src dst).
Proof.
  intros H1 H2. unfold link_or_copy.
  apply appends_bind; [apply appends_exists|]. intros [|].
  - apply appends_ret.
  - apply appends_try_except; [apply appends_symlink, H1|].
    intros _. apply appends_copy2, H2.
Qed.

Lemma appends_to_csv (csv_bytes : DataFrame -> bytes) (df : DataFrame) (p : path) :
  ok (EvToCsv p (columns df) (rows df)) -> appends ok (to_csv csv_bytes df p).
Proof.
  apply appends_one. intros w. unfold to_csv. io_cases.
Qed.

Lemma appends_find_image (image_name : str) (exts : list str) :
  appends ok (clean_and_prepare_captions.find_image image_name exts).
Proof.
  apply appends_same. intros w.
  destruct (find_image_first image_name exts w) as (r & E & _).
  rewrite E. reflexivity.
Qed.

End Appends.

(** *** Column names *)

Lemma existsb_str_eqb (k : str) (cols : list str) :
  existsb (str_eqb k) cols = true <-> In k cols.
Proof.
  rewrite existsb_exists. split.
  - intros (x & Hx & E). apply str_eqb_eq in E. subst. exact Hx.
  - intros H. exists k. split; [exact H | apply str_eqb_eq; reflexivity].
Qed.

Lemma add_keys_known (ks cols : list str) :
  (forall k, In k ks -> In k cols) -> fold_left add_key ks cols = cols.
Proof.
  induction ks as [|k ks IH]; intros H; simpl; [reflexivity|].
  unfold add_key at 2.
  assert (E : existsb (str_eqb k) cols = true)
    by (apply existsb_str_eqb, H; left; reflexivity).
  rewrite E. apply IH. intros k' Hk'. apply H. right; exact Hk'.
Qed.

(** Records that all list the keys [ks] make a frame with the columns [ks]. *)
Lemma frame_columns_uniform (ks : list str) (rs : list record) :
  fold_left add_key ks [] = ks ->
  rs <> [] ->
  Forall (fun r => List.map fst r = ks) rs ->
  frame_columns rs = ks.
Proof.
  intros Hks Hne H. destruct rs as [|r rs]; [contradiction|].
  pose proof (Forall_inv H) as Hr. pose proof (Forall_inv_tail H) as Hrs.
  simpl in Hr. unfold frame_columns. simpl.
  rewrite Hr, Hks. clear Hne H Hr.
  induction Hrs as [|r2 rs2 Hr2 _ IH]; simpl; [reflexivity|].
  rewrite Hr2, add_keys_known by auto. exact IH.
Qed.

(** *** Values *)

Lemma yields_ret {A} (a : A) (V : A -> Prop) : V a -> yields (ret a) V.
Proof. intros H w a' E. inversion E; subst. exact H. Qed.

Lemma yields_bind_val {A B} (m : IO A) (k : A -> IO B)
    (U : A -> Prop) (V : B -> Prop) :
  yields m U -> (forall a, U a -> yields (k a) V) -> yields (bind m k) V.
Proof.
  intros Hm Hk w b. unfold bind. specialize (Hm w).
  destruct (m w) as [[a|e] w1]; simpl in *; [|discriminate].
  apply Hk, Hm. reflexivity.
Qed.

Lemma yields_bind {A B} (m : IO A) (k : A -> IO B) (V : B -> Prop) :
  (forall a, yields (k a) V) -> yields (bind m k) V.
Proof.
  intros Hk. apply (yields_bind_val m k (fun _ => True)); auto.
  intros w a _. exact I.
Qed.

Lemma yields_for_each {X St} (body : X -> St -> IO St) (V : St -> Prop)
    (xs : list X) :
  (forall x s, V s -> yields (body x s) V) ->
  forall s, V s -> yields (for_each xs body s) V.
Proof.
  intros Hb. induction xs as [|x xs IH]; intros s Hs; simpl.
  - apply yields_ret, Hs.
  - eapply yields_bind_val; [apply Hb, Hs | exact IH].
Qed.

Ltac appends_go :=
  repeat first
    [ apply appends_ret | apply appends_raise | apply appends_say
    | apply appends_exists | apply appends_glob | apply appends_rglob
    | apply appends_input | apply appends_makedirs | apply appends_find_image
    | apply appends_read_text; exact I
    | apply appends_write_text; exact I
    | apply appends_link_or_copy; exact I
    | apply appends_for_each; intros ? ?
    | apply appends_try_except; [|intros ?]
    | apply appends_bind; [|intros ?]
    | match goal with
      | |- appends _ (match ?x with _ => _ end) => destruct x
      end ].

(** ** The columns of the CSV files *)

Section CleanAndPrepareCsv.

Import clean_and_prepare_captions.

Variable upper : char -> str.
Variable csv_bytes : DataFrame -> bytes.

Let ok := csv_headers [columns_clean_and_prepare].

Lemma process_caption_file_good (f : path) (st : counters) :
  good_counters st -> yields (process_caption_file upper f st) good_counters.
Proof.
  intros [G1 G2] w st' H.
  destruct (process_caption_file_step upper f st w) as (st1 & w1 & E & _ & C).
  rewrite E in H. simpl in H. inversion H; subst st1. clear H E.
  destruct C as [(M & S & id & orig & R)|C].
  - split.
    + rewrite R, length_app. simpl. lia.
    + rewrite R. apply Forall_app. split; [exact G2|].
      constructor; [reflexivity | constructor].
  - subst st'. split; assumption.
Qed.

Lemma matching_pass_good (caption_files : list path) :
  yields (matching_pass upper caption_files) good_counters.
Proof.
  unfold matching_pass.
  eapply yields_bind_val.
  - apply yields_for_each.
    + intros f st. apply process_caption_file_good.
    + split; [reflexivity | constructor].
  - intros st G. apply yields_bind. intros _. apply yields_ret, G.
Qed.

Lemma appends_process_caption_file (f : path) (st : counters) :
  appends ok (process_caption_file upper f st).
Proof. unfold process_caption_file. appends_go. Qed.

Lemma appends_matching_pass (caption_files : list path) :
  appends ok (matching_pass upper caption_files).
Proof.
  unfold matching_pass, report.
  apply appends_bind;
    [apply appends_for_each; intros; apply appends_process_caption_file|].
  intros st. appends_go.
Qed.

Lemma appends_save_row (row : record) (n : nat) : appends ok (save_row row n).
Proof. unfold save_row. appends_go. Qed.

Lemma clean_and_prepare_csv_columns : appends ok (main upper csv_bytes).
Proof.
  unfold main.
  apply appends_bind; [apply appends_exists|]. intros [|]; simpl; [|apply appends_ret].
  apply appends_bind; [apply appends_exists|]. intros [|]; simpl; [|apply appends_ret].
  apply appends_bind; [apply appends_glob|]. intros [|f files]; [apply appends_ret|].
  eapply appends_bind_val;
    [apply appends_matching_pass | apply matching_pass_good|].
  intros st [G1 G2].
  destruct (matched_count st =? 0)%nat eqn:M; [apply appends_say|].
  apply Nat.eqb_neq in M.
  apply appends_bind; [apply appends_makedirs|]. intros _.
  apply appends_bind.
  { apply appends_to_csv. left. symmetry.
    apply frame_columns_uniform; [reflexivity | | exact G2].
    intros E. rewrite E in G1. simpl in G1. lia. }
  intros _.
  apply appends_bind; [apply appends_makedirs|]. intros _.
  apply appends_bind;
    [apply appends_for_each; intros; apply appends_save_row|].
  intros n. appends_go.
Qed.

End CleanAndPrepareCsv.

Section ProcessAllCsv.

Import process_all_captions.

Variable HAS_PANDAS : bool.
Variable csv_bytes : DataFrame -> bytes.

Let ok := csv_headers [columns_process_all].

Lemma process_pair_good (pair : path * path) (st : counters) :
  good_results st -> yields (process_pair pair st) good_results.
Proof.
  intros G w st' H.
  destruct (process_pair_step pair st w) as (st1 & w1 & E & _ & C).
  rewrite E in H. simpl in H. inversion H; subst st1. clear H E.
  destruct C as [(caption & C)|C]; subst st'; [|exact G].
  unfold good_results, records_with. simpl. apply Forall_app.
  split; [exact G | constructor; [reflexivity | constructor]].
Qed.

Lemma processing_pass_good (matches : list (path * path)) :
  yields (processing_pass matches) good_results.
Proof.
  unfold processing_pass.
  eapply yields_bind_val.
  - apply yields_for_each.
    + intros pair st. apply process_pair_good.
    + constructor.
  - intros st G. apply yields_bind. intros _. apply yields_ret, G.
Qed.

Lemma appends_read_caption_file_with (encs : list encoding) (p : path) :
  appends ok (read_caption_file_with encs p).
Proof. induction encs as [|enc encs IH]; simpl; appends_go. exact IH. Qed.

Lemma appends_process_pair (pair : path * path) (st : counters) :
  appends ok (process_pair pair st).
Proof.
  destruct pair as [img cap]. unfold process_pair, read_caption_file.
  apply appends_try_except; [|intros; apply appends_ret].
  apply appends_bind; [apply appends_read_caption_file_with|].
  intros r. appends_go.
Qed.

Lemma appends_processing_pass (matches : list (path * path)) :
  appends ok (processing_pass matches).
Proof.
  unfold processing_pass, report.
  apply appends_bind;
    [apply appends_for_each; intros; apply appends_process_pair|].
  intros st. appends_go.
Qed.

Lemma appends_first_existing (ps : list path) : appends ok (first_existing ps).
Proof. induction ps as [|p ps IH]; simpl; appends_go. exact IH. Qed.

Lemma appends_find_caption_files (d : path) : appends ok (find_caption_files d).
Proof. unfold find_caption_files. appends_go. Qed.

Lemma appends_find_image_files (d : path) : appends ok (find_image_files d).
Proof. unfold find_image_files. appends_go. Qed.

Lemma process_all_csv_columns : appends ok (main HAS_PANDAS csv_bytes).
Proof.
  unfold main.
  apply appends_bind; [apply appends_input|]. intros answer.
  apply appends_bind.
  { destruct (strip answer); [apply appends_first_existing | apply appends_ret]. }
  intros [caption_path|]; [|apply appends_ret].
  apply appends_bind; [apply appends_exists|].
  intros [|]; cbn [negb]; [|apply appends_ret].
  apply appends_bind; [apply appends_find_caption_files|].
  intros [|f files]; [apply appends_ret|].
  apply appends_bind; [apply appends_exists|]. intros default_present.
  apply appends_bind; [destruct default_present; appends_go|]. intros img_path.
  apply appends_bind; [apply appends_find_image_files|].
  intros [|i images]; [apply appends_ret|].
  destruct (match_images_captions (f :: files) (i :: images)) as [|m matches];
    [appends_go|].
  apply appends_bind; [apply appends_makedirs|]. intros _.
  eapply appends_bind_val;
    [apply appends_processing_pass | apply processing_pass_good|].
  intros st G.
  destruct (results st) as [|r rs] eqn:R; [apply appends_ret|].
  apply appends_bind; [|intros; apply appends_ret].
  destruct HAS_PANDAS; [|apply appends_ret].
  apply appends_bind; [apply appends_makedirs|]. intros _.
  apply appends_bind; [|intros; apply appends_say].
  apply appends_to_csv. left. symmetry.
  apply frame_columns_uniform; [reflexivity | discriminate | ].
  unfold good_results in G. rewrite R in G. exact G.
Qed.

End ProcessAllCsv.

Section GeneratorCsv.

Import caption_generator_finetuned.

Variable model : Type.
Variable from_pretrained : bool -> outcome model.
Variable describe : model -> bytes -> outcome str.
Variable read_csv : bytes -> outcome attr_frame.
Variable csv_bytes : DataFrame -> bytes.

Let ok := csv_headers [columns_generator; []].

Lemma appends_lift {A} (o : outcome A) : appends ok (lift o).
Proof. apply appends_same. reflexivity. Qed.

Lemma appends_read_bytes (p : path) : appends ok (read_bytes p).
Proof. apply appends_same. intros w. unfold read_bytes. io_cases. Qed.

Lemma appends_os_listdir (d : path) : appends ok (os_listdir d).
Proof. apply appends_same. intros w. unfold os_listdir. io_cases. Qed.

Lemma appends_load_model : appends ok (load_model model from_pretrained).
Proof.
  unfold load_model. apply appends_try_except.
  - apply appends_one with (e := EvLoadModel false); [reflexivity | exact I].
  - intros e. destruct (is_ValueError e); [|apply appends_raise].
    apply appends_one with (e := EvLoadModel true); [reflexivity | exact I].
Qed.

Lemma caption_image_good (m : model) (attr_df : attr_frame) (img_name : str)
    (captions : list record) :
  records_with columns_generator captions ->
  yields (caption_image model describe m attr_df img_name captions)
    (records_with columns_generator).
Proof.
  intros G. unfold caption_image.
  destruct (is_image_name img_name); cbn [negb]; [|apply yields_ret, G].
  apply yields_bind. intros data.
  apply yields_bind. intros base.
  apply yields_bind. intros attrs.
  apply yields_ret. apply Forall_app.
  split; [exact G | constructor; [reflexivity | constructor]].
Qed.

Lemma appends_caption_image (m : model) (attr_df : attr_frame) (img_name : str)
    (captions : list record) :
  appends ok (caption_image model describe m attr_df img_name captions).
Proof.
  unfold caption_image. destruct (is_image_name img_name); cbn [negb];
    [|apply appends_ret].
  apply appends_bind; [apply appends_read_bytes|]. intros data.
  apply appends_bind; [apply appends_lift|]. intros base.
  apply appends_bind; [apply appends_lift|]. intros attrs.
  apply appends_ret.
Qed.

Lemma generator_csv_columns :
  appends ok (script model from_pretrained describe read_csv csv_bytes).
Proof.
  unfold script, load_attributes.
  apply appends_bind; [apply appends_load_model|]. intros m.
  apply appends_bind.
  { apply appends_bind; [apply appends_exists|]. intros [|]; [|apply appends_ret].
    apply appends_bind; [apply appends_read_bytes | intros ?; apply appends_lift]. }
  intros attr_df.
  apply appends_bind; [apply appends_os_listdir|]. intros names.
  eapply appends_bind_val.
  - apply appends_for_each. intros ? ?. apply appends_caption_image.
  - apply yields_for_each.
    + intros x s. apply caption_image_good.
    + constructor.
  - intros captions G.
    apply appends_bind; [apply appends_makedirs|]. intros _.
    apply appends_to_csv.
    destruct captions as [|r rs]; [right; left; reflexivity|].
    left. symmetry.
    apply frame_columns_uniform; [reflexivity | discriminate | exact G].
Qed.

End GeneratorCsv.

Lemma appends_headers {A : Type} (allowed : list (list str)) (m : IO A) :
  appends (csv_headers allowed) m ->
  forall w, exists new,
    trace (snd (m w)) = trace w ++ new
    /\ forall p cols rows, In (EvToCsv p cols rows) new -> In cols allowed.
Proof.
  intros H w. destruct (H w) as (new & E & F). exists new. split; [exact E|].
  intros p cols rows Hin. rewrite Forall_forall in F. exact (F _ Hin).
Qed.

(** C4, as the code has it.  Whatever the files hold, every CSV file a run
    writes has the columns [image_id], [original_caption], [cleaned_caption]
    in [clean_and_prepare_captions] and [image_id], [caption] in
    [process_all_captions]; the file of the caption generator has the columns
    [image] and [caption], and no column at all when no image was
    captioned. *)
Theorem csv_columns_per_script :
  (forall upper csv_bytes w, exists new,
      trace (snd (clean_and_prepare_captions.main upper csv_bytes w))
      = trace w ++ new
      /\ forall p cols rows, In (EvToCsv p cols rows) new ->
           cols = [lit "image_id"; lit "original_caption"; lit "cleaned_caption"])
  /\ (forall HAS_PANDAS csv_bytes w, exists new,
      trace (snd (process_all_captions.main HAS_PANDAS csv_bytes w))
      = trace w ++ new
      /\ forall p cols rows, In (EvToCsv p cols rows) new ->
           cols = [lit "image_id"; lit "caption"])
  /\ (forall model from_pretrained describe read_csv csv_bytes w, exists new,
      trace (snd (caption_generator_finetuned.script model from_pretrained
                    describe read_csv csv_bytes w))
      = trace w ++ new
      /\ forall p cols rows, In (EvToCsv p cols rows) new ->
           cols = [lit "image"; lit "caption"] \/ cols = []).
Proof.
  split; [|split].
  - intros upper csv_bytes w.
    destruct (appends_headers _ _
                (clean_and_prepare_csv_columns upper csv_bytes) w)
      as (new & E & H).
    exists new. split; [exact E|]. intros p cols rows Hin.
    destruct (H p cols rows Hin) as [C|[]]. symmetry. exact C.
  - intros HAS_PANDAS csv_bytes w.
    destruct (appends_headers _ _
                (process_all_csv_columns HAS_PANDAS csv_bytes) w)
      as (new & E & H).
    exists new. split; [exact E|]. intros p cols rows Hin.
    destruct (H p cols rows Hin) as [C|[]]. symmetry. exact C.
  - intros model from_pretrained describe read_csv csv_bytes w.
    destruct (appends_headers _ _
                (generator_csv_columns model from_pretrained describe
                   read_csv csv_bytes) w)
      as (new & E & H).
    exists new. split; [exact E|]. intros p cols rows Hin.
    destruct (H p cols rows Hin) as [C|[C|[]]]; [left | right]; symmetry; exact C.
Qed.

(** C4 as stated fails: the file the caption generator writes has the
    column [image], not [image_id]. *)
Lemma generator_csv_has_image_column :
  exists rows,
    trace (snd (example_script world_generator))
    = [EvLoadModel false;
       EvToCsv caption_generator_finetuned.OUTPUT_CAPTION_FILE
         [lit "image"; lit "caption"] rows]
    /\ [lit "image"; lit "caption"] <> [lit "image_id"; lit "caption"].
Proof.
  eexists. split; [vm_compute; reflexivity|]. vm_compute. discriminate.
Qed.

(** ** Files after a write *)









(** ** Text that was read can be written *)



















(** ** A second record with the same image_id *)


Section Duplicates.



End Duplicates.



(** ** Attempts *)

Lemma link_or_copy_steps (src dst : path) (w : world) :
  exists steps,
    trace (snd (link_or_copy src dst w)) = trace w ++ steps
    /\ image_steps src dst steps.
Proof.
  destruct (link_or_copy_frame src dst w) as (_ & _ & _ & [T|[T|T]]).
  - exists []. rewrite app_nil_r. split; [exact T | left; reflexivity].
  - eexists. split; [exact T | right; left; reflexivity].
  - eexists. split; [exact T | right; right; reflexivity].
Qed.

Lemma load_model_attempts (model : Type) (from_pretrained : bool -> outcome model)
    (w : world) :
  let w' := snd (caption_generator_finetuned.load_model model from_pretrained w) in
  (trace w' = trace w ++ [EvLoadModel false]
   /\ forall e, from_pretrained false = Raise e -> is_ValueError e = false)
  \/ (trace w' = trace w ++ [EvLoadModel false; EvLoadModel true]
      /\ exists e, from_pretrained false = Raise e /\ is_ValueError e = true).
Proof.
  unfold caption_generator_finetuned.load_model, try_except,
    caption_generator_finetuned.call_from_pretrained, raise.
  destruct (from_pretrained false) as [m|e] eqn:E; simpl.
  - left. split; [reflexivity | discriminate].
  - destruct (is_ValueError e) eqn:V; simpl.
    + right. split; [rewrite <- app_assoc; reflexivity | exists e; auto].
    + left. split; [reflexivity|]. intros e' H. inversion H; subst. exact V.
Qed.

Lemma read_caption_file_attempts (p : path) (w : world) :
  exists r k w',
    process_all_captions.read_caption_file p w = (Ok r, w')
    /\ (1 <= k <= 5)%nat
    /\ trace w' = trace w
         ++ List.map (EvOpenRead p) (firstn k process_all_captions.encodings)
    /\ (r = None -> k = 5%nat).
Proof.
  unfold process_all_captions.read_caption_file.
  destruct (read_caption_file_with_spec process_all_captions.encodings p w)
    as (r & k & w' & E & _ & _ & T & K & K1 & Hr).
  exists r, k, w'. split; [exact E|]. simpl in K.
  split; [split; [apply K1; discriminate | exact K]|].
  split; [exact T|]. intros N. subst r. exact Hr.
Qed.

Lemma process_pair_attempts (img cap : path)
    (st : process_all_captions.counters) (w : world) :
  let dst := process_all_captions.output_dir ++ [name_of img] in
  let txt := process_all_captions.output_dir
               ++ [with_suffix (name_of img) (lit ".txt")] in
  exists k steps writes,
    trace (snd (process_all_captions.process_pair (img, cap) st w))
    = trace w
        ++ List.map (EvOpenRead cap) (firstn k process_all_captions.encodings)
        ++ steps ++ writes
    /\ (1 <= k <= 5)%nat
    /\ image_steps img dst steps /\ caption_writes txt writes.
Proof.
  intros dst txt.
  unfold process_all_captions.process_pair, try_except, bind.
  destruct (read_caption_file_attempts cap w) as (r & k & w1 & E & K & T & _).
  rewrite E.
  destruct r as [[|c text]|]; unfold ret; cbv beta iota;
    try (exists k, [], []; rewrite !app_nil_r;
         split; [exact T|]; split; [exact K|]; split; left; reflexivity).
  fold dst.
  destruct (link_or_copy_steps img dst w1) as (steps & S & HS).
  destruct (link_or_copy img dst w1) as [[[]|e] w2]; cbn [snd] in S;
    cbv beta iota.
  - fold txt.
    pose proof (write_text_frame txt
                  (process_all_captions.clean_caption (c :: text)) w2)
      as (_ & _ & _ & W).
    destruct (write_text txt _ w2) as [[[]|e] w3]; cbn [snd] in W;
      cbv beta iota; cbn [snd];
      exists k, steps, [EvOpenWrite txt];
      (split; [rewrite W, S, T, <- !app_assoc; reflexivity|]);
      (split; [exact K|]); (split; [exact HS | right; reflexivity]).
  - cbn [snd]. exists k, steps, []. rewrite app_nil_r.
    split; [rewrite S, T, <- !app_assoc; reflexivity|].
    split; [exact K|]. split; [exact HS | left; reflexivity].
Qed.


Lemma save_row_attempts (row : record) (n : nat) (w : world) :
  let image_id := clean_and_prepare_captions.field (lit "image_id") row in
  let dst := clean_and_prepare_captions.OUTPUT_TRAIN_DIR ++ [image_id] in
  let txt := clean_and_prepare_captions.OUTPUT_TRAIN_DIR
               ++ [with_suffix image_id (lit ".txt")] in
  exists src steps writes,
    trace (snd (clean_and_prepare_captions.save_row row n w))
    = trace w ++ steps ++ writes
    /\ image_steps src dst steps /\ caption_writes txt writes.
Proof.
  intros image_id dst txt.
  unfold clean_and_prepare_captions.save_row, bind. fold image_id.
  destruct (find_image_first (before_first_dot image_id)
              clean_and_prepare_captions.EXTENSIONS w) as (r & E & _).
  rewrite E.
  set (src := match r with
              | Some (potential_path, _) => potential_path
              | None => clean_and_prepare_captions.IMAGE_DIR ++ [image_id]
              end).
  unfold exists_ at 1. destruct (path_exists w src); unfold ret; cbv beta iota.
  - fold dst.
    destruct (link_or_copy_steps src dst w) as (steps & S & HS).
    destruct (link_or_copy src dst w) as [[[]|e] w2]; cbn [snd] in S;
      cbv beta iota.
    + fold txt.
      pose proof (write_text_frame txt
                    (clean_and_prepare_captions.field (lit "cleaned_caption") row)
                    w2) as (_ & _ & _ & W).
      destruct (write_text txt _ w2) as [[[]|e] w3]; cbn [snd] in W;
        cbv beta iota; cbn [snd];
        exists src, steps, [EvOpenWrite txt];
        (split; [rewrite W, S, <- !app_assoc; reflexivity|]);
        (split; [exact HS | right; reflexivity]).
    + cbn [snd]. exists src, steps, []. rewrite app_nil_r.
      split; [exact S|]. split; [exact HS | left; reflexivity].
  - cbn [snd]. exists src, [], []. rewrite app_nil_r.
    split; [reflexivity|]. split; left; reflexivity.
Qed.

(** C8, as the code has it.  Two places try again with other options: the
    model load, once, after a [ValueError], and [read_caption_file] of
    [process_all_captions], which opens the same caption file once per
    encoding of its list, in order, up to five times, until one reads it.
    Placing an image is a link attempt, then one copy when the link fails;
    a caption file is written at most once per record, and
    [clean_and_prepare_captions] opens a caption file at most once. *)
Theorem retries_are_fallbacks :
  (forall (model : Type) (from_pretrained : bool -> outcome model) (w : world),
      let w' := snd (caption_generator_finetuned.load_model model
                       from_pretrained w) in
      (trace w' = trace w ++ [EvLoadModel false]
       /\ forall e, from_pretrained false = Raise e -> is_ValueError e = false)
      \/ (trace w' = trace w ++ [EvLoadModel false; EvLoadModel true]
          /\ exists e, from_pretrained false = Raise e /\ is_ValueError e = true))
  /\ (forall (p : path) (w : world),
      exists r k w',
        process_all_captions.read_caption_file p w = (Ok r, w')
        /\ (1 <= k <= 5)%nat
        /\ trace w' = trace w
             ++ List.map (EvOpenRead p) (firstn k process_all_captions.encodings)
        /\ (r = None -> k = 5%nat))
  /\ (forall (upper : char -> str) (caption_file : path)
             (st : clean_and_prepare_captions.counters) (w : world),
      let w' := snd (clean_and_prepare_captions.process_caption_file upper
                       caption_file st w) in
      trace w' = trace w \/ trace w' = trace w ++ [EvOpenRead caption_file utf_8])
  /\ (forall (img cap : path) (st : process_all_captions.counters) (w : world),
      exists k steps writes,
        trace (snd (process_all_captions.process_pair (img, cap) st w))
        = trace w
            ++ List.map (EvOpenRead cap) (firstn k process_all_captions.encodings)
            ++ steps ++ writes
        /\ (1 <= k <= 5)%nat
        /\ image_steps img (process_all_captions.output_dir ++ [name_of img]) steps
        /\ caption_writes
             (process_all_captions.output_dir
                ++ [with_suffix (name_of img) (lit ".txt")]) writes)
  /\ (forall (row : record) (n : nat) (w : world),
      exists src steps writes,
        trace (snd (clean_and_prepare_captions.save_row row n w))
        = trace w ++ steps ++ writes
        /\ image_steps src
             (clean_and_prepare_captions.OUTPUT_TRAIN_DIR
                ++ [clean_and_prepare_captions.field (lit "image_id") row]) steps
        /\ caption_writes
             (clean_and_prepare_captions.OUTPUT_TRAIN_DIR
                ++ [with_suffix
                      (clean_and_prepare_captions.field (lit "image_id") row)
                      (lit ".txt")]) writes).
Proof.
  split; [|split; [|split; [|split]]].
  - apply load_model_attempts.
  - apply read_caption_file_attempts.
  - intros upper f st w.
    destruct (process_caption_file_step upper f st w) as (st' & w1 & E & W & _).
    rewrite E. cbn [snd]. destruct W; subst w1; [left | right]; reflexivity.
  - apply process_pair_attempts.
  - apply save_row_attempts.
Qed.

(** C8 as stated fails: a caption file that is not UTF-8 is opened three
    times before it is read, and the image is placed by a second operation
    after the link attempt has failed. *)
Lemma caption_file_opened_three_times :
  let p := text_file "a.txt" in
  let img := image_file "a.jpg" in
  fst (process_all_captions.read_caption_file p world_latin1_caption)
  = Ok (Some (255 :: lit "A man."))
  /\ trace (snd (process_all_captions.read_caption_file p world_latin1_caption))
     = [EvOpenRead p utf_8; EvOpenRead p utf_8_sig; EvOpenRead p latin_1]
  /\ trace (snd (process_all_captions.process_pair (img, p)
                   (process_all_captions.mkCounters [] 0 0)
                   world_latin1_caption))
     = [EvOpenRead p utf_8; EvOpenRead p utf_8_sig; EvOpenRead p latin_1;
        EvSymlink img (train_file "a.jpg"); EvCopy img (train_file "a.jpg");
        EvOpenWrite (train_file "a.txt")].
Proof. repeat split; vm_compute; reflexivity. Qed.

(** ** The output directory *)

(** C6 at its failing input.  The images [a.jpg] and [a.b.jpg] and the
    caption [a.b.txt]: the first loop of [clean_and_prepare_captions] pairs
    the caption with [a.b.jpg], the second loop looks the source up again
    under the text before the first dot, finds [a.jpg], and puts its content
    (or a link to it) into the output directory under the name [a.b.jpg].  The
    caption file next to it holds the cleaned caption. *)
Theorem wrong_image_under_dotted_name :
  let run := clean_and_prepare_captions.main upper_ascii example_csv_bytes in
  fst (run world_dotted_names) = Ok tt
  /\ stdout (snd (run world_dotted_names)) = [PrMatched 1; PrSaved 1; PrComplete]
  /\ stat (entries world_dotted_names) (image_file "a.b.jpg")
     = Some (File (blit "image of a.b"))
  /\ stat (entries (snd (run world_dotted_names))) (train_file "a.b.jpg")
     = Some (File (blit "image of a"))
  /\ stat (entries (snd (run world_dotted_names))) (train_file "a.b.txt")
     = Some (File (blit "A woman with long hair, smiling."))
  /\ assoc (train_file "a.b.jpg") (entries (snd (run world_dotted_names_links)))
     = Some (Link (image_file "a.jpg")).
Proof. repeat split; vm_compute; reflexivity. Qed.


(* ================================================================== *)
(** * Part III: further properties of the scripts *)
(* ================================================================== *)

(** ** Matching, beyond the first image *)

Lemma existsb_find_some {A : Type} (p : A -> bool) (l : list A) :
  existsb p l = match find p l with Some _ => true | None => false end.
Proof.
  induction l as [|x l IH]; simpl; [reflexivity|].
  destruct (p x); [reflexivity | exact IH].
Qed.

(** The captions of the pairs are the captions that have an image of their
    stem, each once and in the order of the caption list; so there are never
    more pairs than captions, and none without images. *)
Theorem matched_captions_are_filtered (caps imgs : list path) :
  List.map snd (process_all_captions.match_images_captions caps imgs)
  = filter (fun cap => existsb (process_all_captions.same_stem cap) imgs) caps
  /\ (length (process_all_captions.match_images_captions caps imgs)
      <= length caps)%nat
  /\ process_all_captions.match_images_captions caps [] = [].
Proof.
  assert (E : List.map snd (process_all_captions.match_images_captions caps imgs)
              = filter (fun cap => existsb (process_all_captions.same_stem cap) imgs)
                  caps).
  { unfold process_all_captions.match_images_captions.
    induction caps as [|c caps IH]; simpl; [reflexivity|].
    rewrite map_app, IH, existsb_find_some.
    unfold process_all_captions.first_image.
    destruct (find (process_all_captions.same_stem c) imgs); reflexivity. }
  split; [exact E|]. split.
  - rewrite <- (length_map snd), E. apply filter_length_le.
  - clear E. unfold process_all_captions.match_images_captions.
    induction caps as [|c caps IH]; simpl; [reflexivity | exact IH].
Qed.


(** ** Stems *)

Lemma drop_while_app_stop (p : char -> bool) (a : str) (c : char) (r : str) :
  forallb p a = true -> p c = false -> drop_while p (a ++ c :: r) = c :: r.
Proof.
  intros Ha Hc. induction a as [|x a IH]; simpl in *.
  - rewrite Hc. reflexivity.
  - apply andb_true_iff in Ha as [Hx Ha]. rewrite Hx. apply IH, Ha.
Qed.

Lemma take_while_app_stop (p : char -> bool) (a : str) (c : char) (r : str) :
  forallb p a = true -> p c = false -> take_while p (a ++ c :: r) = a.
Proof.
  intros Ha Hc. induction a as [|x a IH]; simpl in *.
  - rewrite Hc. reflexivity.
  - apply andb_true_iff in Ha as [Hx Ha]. rewrite Hx, IH by exact Ha. reflexivity.
Qed.

(** A name made of a non-empty text, a dot and a non-empty extension without
    dots has that text as its stem. *)
Lemma stem_add_extension (x e : str) :
  x <> [] -> e <> [] -> forallb not_dot e = true -> stem (x ++ 46 :: e) = x.
Proof.
  intros Hx He Hd. unfold stem, rsplit_dot.
  rewrite rev_app_distr. simpl. rewrite <- app_assoc. simpl.
  assert (Hr : forallb not_dot (rev e) = true) by (rewrite forallb_rev; exact Hd).
  rewrite (drop_while_app_stop not_dot (rev e) 46 (rev x) Hr eq_refl).
  rewrite (take_while_app_stop not_dot (rev e) 46 (rev x) Hr eq_refl).
  rewrite !rev_involutive.
  destruct x; [contradiction|]. destruct e; [contradiction|]. reflexivity.
Qed.

Lemma stem_nonempty (name : str) : name <> [] -> stem name <> [].
Proof.
  intros H. unfold stem.
  destruct (rsplit_dot name) as [[[|b before] [|a after]]|]; try exact H.
  discriminate.
Qed.

(** The caption file written next to an image has the stem of the image, so
    a later run pairs the two again. *)
Theorem caption_file_keeps_stem (img : path) :
  name_of img <> [] ->
  stem (with_suffix (name_of img) (lit ".txt")) = stem (name_of img)
  /\ process_all_captions.match_images_captions
       [process_all_captions.output_dir
          ++ [with_suffix (name_of img) (lit ".txt")]]
       [process_all_captions.output_dir ++ [name_of img]]
     = [(process_all_captions.output_dir ++ [name_of img],
         process_all_captions.output_dir
           ++ [with_suffix (name_of img) (lit ".txt")])].
Proof.
  intros H.
  assert (E : stem (with_suffix (name_of img) (lit ".txt")) = stem (name_of img)).
  { unfold with_suffix.
    apply (stem_add_extension (stem (name_of img)) (lit "txt"));
      [apply stem_nonempty, H | discriminate | reflexivity]. }
  split; [exact E|].
  unfold process_all_captions.match_images_captions,
    process_all_captions.first_image. cbn [flat_map find].
  unfold process_all_captions.same_stem. rewrite !name_of_child.
  assert (T : str_eqb (stem (name_of img))
                (stem (with_suffix (name_of img) (lit ".txt"))) = true)
    by (apply str_eqb_eq; symmetry; exact E).
  rewrite T. reflexivity.
Qed.

Lemma caption_file_keeps_stem_witness :
  stem (with_suffix (name_of (image_file "a.b.jpg")) (lit ".txt"))
  = stem (name_of (image_file "a.b.jpg"))
  /\ process_all_captions.match_images_captions
       [process_all_captions.output_dir
          ++ [with_suffix (name_of (image_file "a.b.jpg")) (lit ".txt")]]
       [process_all_captions.output_dir ++ [name_of (image_file "a.b.jpg")]]
     = [(process_all_captions.output_dir ++ [name_of (image_file "a.b.jpg")],
         process_all_captions.output_dir
           ++ [with_suffix (name_of (image_file "a.b.jpg")) (lit ".txt")])].
Proof.
  apply (caption_file_keeps_stem (image_file "a.b.jpg")). vm_compute. discriminate.
Defined.

Lemma listed_extension_shape (ext : str) :
  In ext process_all_captions.IMAGE_PATTERNS ->
  exists e, ext = 46 :: e /\ e <> [] /\ forallb not_dot e = true.
Proof.
  intros H. unfold process_all_captions.IMAGE_PATTERNS in H. simpl in H.
  repeat (destruct H as [H|H]); try contradiction; subst ext;
    eexists; (split; [reflexivity|]); (split; [discriminate | reflexivity]).
Qed.

(** A caption [x.txt] and an image [x] with a listed extension are paired,
    whatever the non-empty name [x] is (dots included) and wherever the two
    files are. *)
Theorem same_name_pair_matches (x ext : str) (caption_dir image_dir : path) :
  x <> [] ->
  In ext process_all_captions.IMAGE_PATTERNS ->
  process_all_captions.match_images_captions
    [caption_dir ++ [x ++ lit ".txt"]] [image_dir ++ [x ++ ext]]
  = [(image_dir ++ [x ++ ext], caption_dir ++ [x ++ lit ".txt"])].
Proof.
  intros Hx He. destruct (listed_extension_shape ext He) as (e & E & Hne & Hd).
  subst ext.
  unfold process_all_captions.match_images_captions,
    process_all_captions.first_image. cbn [flat_map find].
  unfold process_all_captions.same_stem. rewrite !name_of_child.
  rewrite (stem_add_extension x e Hx Hne Hd).
  change (lit ".txt") with (46 :: lit "txt").
  rewrite (stem_add_extension x (lit "txt") Hx ltac:(discriminate) eq_refl).
  assert (T : str_eqb x x = true) by (apply str_eqb_eq; reflexivity).
  rewrite T. reflexivity.
Qed.

Lemma same_name_pair_matches_witness :
  process_all_captions.match_images_captions
    [text_dir ++ [lit "v1.2" ++ lit ".txt"]] [images_dir ++ [lit "v1.2" ++ lit ".PNG"]]
  = [(images_dir ++ [lit "v1.2" ++ lit ".PNG"],
      text_dir ++ [lit "v1.2" ++ lit ".txt"])].
Proof.
  apply (same_name_pair_matches (lit "v1.2") (lit ".PNG") text_dir images_dir).
  - vm_compute. discriminate.
  - vm_compute. tauto.
Defined.

(** ** The caption generator, beyond the base caption *)

Lemma has_same_members (a1 a2 : list str) (x : string) :
  (forall a, In a a1 <-> In a a2) ->
  caption_generator_finetuned.has x a1 = caption_generator_finetuned.has x a2.
Proof.
  intros H. unfold caption_generator_finetuned.has.
  destruct (existsb (str_eqb (lit x)) a1) eqn:E1;
    destruct (existsb (str_eqb (lit x)) a2) eqn:E2; try reflexivity.
  - apply existsb_str_eqb, H, existsb_str_eqb in E1. congruence.
  - apply existsb_str_eqb, H, existsb_str_eqb in E2. congruence.
Qed.

(** The caption depends on which attributes are present, not on their order
    or on how often one is listed. *)
Theorem caption_depends_on_attribute_set
    (base1 base2 : str) (attributes1 attributes2 : list str) :
  (forall a, In a attributes1 <-> In a attributes2) ->
  caption_generator_finetuned.make_criminal_style_caption base1 attributes1
  = caption_generator_finetuned.make_criminal_style_caption base2 attributes2.
Proof.
  intros H. unfold caption_generator_finetuned.make_criminal_style_caption.
  rewrite !(fun x => has_same_members attributes1 attributes2 x H).
  reflexivity.
Qed.

Lemma caption_depends_on_attribute_set_witness :
  caption_generator_finetuned.make_criminal_style_caption (lit "a man")
    [lit "Male"; lit "Bald"]
  = caption_generator_finetuned.make_criminal_style_caption (lit "a photo")
      [lit "Bald"; lit "Male"; lit "Bald"].
Proof.
  apply (caption_depends_on_attribute_set (lit "a man") (lit "a photo")
           [lit "Male"; lit "Bald"] [lit "Bald"; lit "Male"; lit "Bald"]).
  intros a. simpl. tauto.
Defined.

Lemma starts_with_app (p a b : str) :
  (length p <= length a)%nat -> starts_with p (a ++ b) = starts_with p a.
Proof.
  revert a; induction p as [|c p IH]; intros a H; [destruct a; reflexivity|].
  destruct a as [|d a]; simpl in H; [lia|]. simpl.
  rewrite IH by lia. reflexivity.
Qed.

Lemma is_image_name_suffix (x s : str) :
  (4 <= length s)%nat ->
  caption_generator_finetuned.is_image_name (x ++ s)
  = caption_generator_finetuned.is_image_name s.
Proof.
  intros H. unfold caption_generator_finetuned.is_image_name, ends_with.
  rewrite map_app, rev_app_distr.
  rewrite !starts_with_app; [reflexivity | |];
    rewrite !length_rev, length_map; simpl; exact H.
Qed.

(** The generator captions the files whose names end in [.jpg] or [.png] in
    any letter case, and none whose name ends in [.jpeg], an extension the two
    other scripts accept. *)
Theorem generator_image_extensions (x : str) :
  caption_generator_finetuned.is_image_name (x ++ lit ".jpg") = true
  /\ caption_generator_finetuned.is_image_name (x ++ lit ".JPG") = true
  /\ caption_generator_finetuned.is_image_name (x ++ lit ".Jpg") = true
  /\ caption_generator_finetuned.is_image_name (x ++ lit ".png") = true
  /\ caption_generator_finetuned.is_image_name (x ++ lit ".PNG") = true
  /\ caption_generator_finetuned.is_image_name (x ++ lit ".jpeg") = false
  /\ caption_generator_finetuned.is_image_name (x ++ lit ".JPEG") = false
  /\ In (lit ".jpeg") process_all_captions.IMAGE_PATTERNS
  /\ In (lit ".jpeg") clean_and_prepare_captions.EXTENSIONS.
Proof.
  repeat split;
    try (rewrite is_image_name_suffix by (simpl; lia); reflexivity);
    simpl; tauto.
Qed.

(** ** The rows of the second loop *)

Lemma find_image_none (image_name : str) (exts : list str) (w : world) :
  Forall (fun e => path_exists w
                     (clean_and_prepare_captions.IMAGE_DIR ++ [image_name ++ e])
                   = false) exts ->
  clean_and_prepare_captions.find_image image_name exts w = (Ok None, w).
Proof.
  induction 1 as [|e exts He _ IH]; cbn [clean_and_prepare_captions.find_image];
    [reflexivity|].
  unfold bind, exists_. rewrite He. exact IH.
Qed.

(** A row whose image is no longer in the image directory is passed over:
    nothing is written and [saved_count] stays. *)
Theorem save_row_missing_source (row : record) (n : nat) (w : world) :
  let image_id := clean_and_prepare_captions.field (lit "image_id") row in
  Forall (fun e => path_exists w
                     (clean_and_prepare_captions.IMAGE_DIR
                        ++ [before_first_dot image_id ++ e]) = false)
         clean_and_prepare_captions.EXTENSIONS ->
  path_exists w (clean_and_prepare_captions.IMAGE_DIR ++ [image_id]) = false ->
  clean_and_prepare_captions.save_row row n w = (Ok n, w).
Proof.
  intros image_id H1 H2. unfold clean_and_prepare_captions.save_row, bind.
  fold image_id. rewrite (find_image_none _ _ _ H1).
  unfold exists_ at 1. rewrite H2. reflexivity.
Qed.

Lemma save_row_missing_source_witness :
  clean_and_prepare_captions.save_row
    [(lit "image_id", lit "gone.jpg"); (lit "cleaned_caption", lit "Gone.")]
    3 world_one_pair
  = (Ok 3%nat, world_one_pair).
Proof.
  apply (save_row_missing_source
           [(lit "image_id", lit "gone.jpg"); (lit "cleaned_caption", lit "Gone.")]
           3%nat world_one_pair).
  - repeat constructor.
  - reflexivity.
Defined.

Lemma before_first_dot_app (name e : str) :
  forallb not_dot name = true -> before_first_dot (name ++ 46 :: e) = name.
Proof.
  induction name as [|c name IH]; intros H; simpl in *; [reflexivity|].
  apply andb_true_iff in H as [Hc H]. unfold not_dot in Hc.
  apply negb_true_iff in Hc. rewrite Hc, IH by exact H. reflexivity.
Qed.

Lemma extension_shape (ext : str) :
  In ext clean_and_prepare_captions.EXTENSIONS -> exists e, ext = 46 :: e.
Proof.
  intros H. unfold clean_and_prepare_captions.EXTENSIONS in H. simpl in H.
  repeat (destruct H as [H|H]); try contradiction; subst ext;
    eexists; reflexivity.
Qed.

(** For a caption whose stem has no dot, the second loop finds again the
    image the first loop matched: looking the image up under the text before
    the first dot of the image_id gives the same file. *)
Theorem second_lookup_same_image
    (image_name : str) (w : world) (p : path) (filename : str) :
  forallb not_dot image_name = true ->
  clean_and_prepare_captions.find_image image_name
    clean_and_prepare_captions.EXTENSIONS w = (Ok (Some (p, filename)), w) ->
  clean_and_prepare_captions.find_image (before_first_dot filename)
    clean_and_prepare_captions.EXTENSIONS w = (Ok (Some (p, filename)), w).
Proof.
  intros Hd H.
  destruct (find_image_first image_name clean_and_prepare_captions.EXTENSIONS w)
    as (r & E & Hr).
  rewrite E in H. inversion H; subst r.
  destruct Hr as (pre & ext & post & E1 & E2 & _).
  assert (He : In ext clean_and_prepare_captions.EXTENSIONS)
    by (rewrite E1; apply in_or_app; right; left; reflexivity).
  destruct (extension_shape ext He) as (e & Ee). subst ext filename.
  rewrite before_first_dot_app by exact Hd. exact E.
Qed.

Lemma second_lookup_same_image_witness :
  clean_and_prepare_captions.find_image (before_first_dot (lit "a.jpg"))
    clean_and_prepare_captions.EXTENSIONS world_one_pair
  = (Ok (Some (image_file "a.jpg", lit "a.jpg")), world_one_pair).
Proof.
  apply (second_lookup_same_image (lit "a") world_one_pair
           (image_file "a.jpg") (lit "a.jpg")); reflexivity.
Defined.

Lemma save_loop_bound (rows : list record) (n m : nat) (w : world) :
  fst (for_each rows clean_and_prepare_captions.save_row n w) = Ok m ->
  (n <= m <= n + length rows)%nat.
Proof.
  revert n w; induction rows as [|row rows IH]; intros n w H; simpl in H.
  - inversion H. simpl. lia.
  - unfold bind in H.
    destruct (clean_and_prepare_captions.save_row row n w) as [[n1|e] w1] eqn:E;
      [|discriminate].
    assert (B : n1 = n \/ n1 = S n).
    { unfold clean_and_prepare_captions.save_row, bind in E.
      destruct (clean_and_prepare_captions.find_image _ _ w) as [[r|e] w0];
        [|discriminate].
      unfold exists_ at 1 in E.
      destruct (path_exists w0 _); [|inversion E; auto].
      destruct (link_or_copy _ _ w0) as [[[]|e] w2]; [|discriminate].
      destruct (write_text _ _ w2) as [[[]|e] w3]; [|discriminate].
      inversion E; auto. }
    apply IH in H. simpl. destruct B; subst; lia.
Qed.

(** The second loop saves at most one pair per row, so [saved_count] never
    exceeds the number of records; with no rows it is zero. *)
Theorem saved_count_bounded (rows : list record) (w : world) :
  match fst (for_each rows clean_and_prepare_captions.save_row 0%nat w) with
  | Ok saved_count => (saved_count <= length rows)%nat
  | Raise _ => True
  end.
Proof.
  destruct (fst (for_each rows clean_and_prepare_captions.save_row 0%nat w))
    as [m|e] eqn:E; [|exact I].
  apply save_loop_bound in E. lia.
Qed.

(** ** The records of the first loop *)

(** Every record the first loop of [clean_and_prepare_captions] appends
    names an image that exists in the image directory under the stem of the
    caption file and a listed extension; its original caption is the stripped
    UTF-8 text of the file and has at least five characters, and the loop
    leaves the file system as it was. *)
Theorem kept_record_invariants
    (upper : char -> str) (caption_file : path)
    (st st' : clean_and_prepare_captions.counters) (w w' : world) :
  clean_and_prepare_captions.process_caption_file upper caption_file st w
  = (Ok st', w') ->
  clean_and_prepare_captions.matched_count st'
  = S (clean_and_prepare_captions.matched_count st) ->
  exists ext text,
    In ext clean_and_prepare_captions.EXTENSIONS
    /\ path_exists w (clean_and_prepare_captions.IMAGE_DIR
                        ++ [stem (name_of caption_file) ++ ext]) = true
    /\ fst (read_text caption_file utf_8 w) = Ok text
    /\ (5 <= length (strip text))%nat
    /\ clean_and_prepare_captions.results st'
       = clean_and_prepare_captions.results st
           ++ [[(lit "image_id", stem (name_of caption_file) ++ ext);
                (lit "original_caption", strip text);
                (lit "cleaned_caption",
                 clean_and_prepare_captions.clean_caption upper (strip text))]]
    /\ entries w' = entries w.
Proof.
  unfold clean_and_prepare_captions.process_caption_file, bind.
  destruct (find_image_first (stem (name_of caption_file))
              clean_and_prepare_captions.EXTENSIONS w) as (r & E & Hr).
  rewrite E. destruct r as [[p filename]|].
  - destruct Hr as (pre & ext & post & E1 & E2 & E3 & P & _).
    unfold try_except, bind.
    pose proof (read_text_world caption_file utf_8 w) as W.
    destruct (read_text caption_file utf_8 w) as [[text|e] w1] eqn:R;
      simpl in W; subst w1.
    + destruct (length (strip text) <? 5)%nat eqn:L; unfold ret;
        intros H M; inversion H; subst st' w'; simpl in M; [lia|].
      exists ext, text. subst filename p.
      split; [rewrite E1; apply in_or_app; right; left; reflexivity|].
      split; [exact P|]. split; [reflexivity|].
      split; [apply Nat.ltb_ge in L; exact L|]. split; reflexivity.
    + unfold ret. intros H M. inversion H; subst st'. simpl in M. lia.
  - unfold ret. intros H M. inversion H; subst st'. simpl in M. lia.
Qed.

Lemma kept_record_invariants_witness :
  exists ext text,
    In ext clean_and_prepare_captions.EXTENSIONS
    /\ path_exists world_one_pair
         (clean_and_prepare_captions.IMAGE_DIR
            ++ [stem (name_of (text_file "a.txt")) ++ ext]) = true
    /\ fst (read_text (text_file "a.txt") utf_8 world_one_pair) = Ok text
    /\ (5 <= length (strip text))%nat
    /\ clean_and_prepare_captions.results
         (clean_and_prepare_captions.mkCounters
            [[(lit "image_id", lit "a.jpg");
              (lit "original_caption", lit "A man with short hair.");
              (lit "cleaned_caption", lit "A man with short hair.")]] 1 0)
       = [] ++ [[(lit "image_id", stem (name_of (text_file "a.txt")) ++ ext);
                 (lit "original_caption", strip text);
                 (lit "cleaned_caption",
                  clean_and_prepare_captions.clean_caption upper_ascii
                    (strip text))]]
    /\ entries (record_event (EvOpenRead (text_file "a.txt") utf_8) world_one_pair)
       = entries world_one_pair.
Proof.
  apply (kept_record_invariants upper_ascii (text_file "a.txt")
           (clean_and_prepare_captions.mkCounters [] 0 0)
           (clean_and_prepare_captions.mkCounters
              [[(lit "image_id", lit "a.jpg");
                (lit "original_caption", lit "A man with short hair.");
                (lit "cleaned_caption", lit "A man with short hair.")]] 1 0)
           world_one_pair
           (record_event (EvOpenRead (text_file "a.txt") utf_8) world_one_pair));
    vm_compute; reflexivity.
Defined.

(** ** Failed pairs and totals of [process_all_captions] *)

(** A caption file that cannot be read with any of the five encodings, or
    that is empty, counts as failed, and nothing is placed in the output
    directory for it, not even the image. *)
Theorem unreadable_caption_places_nothing
    (img cap : path) (st : process_all_captions.counters) (w : world) :
  fst (process_all_captions.read_caption_file cap w) = Ok None
  \/ fst (process_all_captions.read_caption_file cap w) = Ok (Some []) ->
  exists w' k,
    process_all_captions.process_pair (img, cap) st w
    = (Ok (process_all_captions.fail st), w')
    /\ entries w' = entries w
    /\ trace w' = trace w
         ++ List.map (EvOpenRead cap) (firstn k process_all_captions.encodings).
Proof.
  intros H. unfold process_all_captions.read_caption_file in H.
  destruct (read_caption_file_with_spec process_all_captions.encodings cap w)
    as (r & k & w1 & E & F & _ & T & _).
  rewrite E in H. simpl in H.
  unfold process_all_captions.process_pair, try_except, bind,
    process_all_captions.read_caption_file.
  rewrite E. exists w1, k.
  destruct H as [H|H]; inversion H; subst r; unfold ret; auto.
Qed.

Lemma unreadable_caption_places_nothing_witness :
  exists w' k,
    process_all_captions.process_pair (image_file "a.jpg", text_file "a.txt")
      (process_all_captions.mkCounters [] 0 0) world_empty_caption
    = (Ok (process_all_captions.fail (process_all_captions.mkCounters [] 0 0)), w')
    /\ entries w' = entries world_empty_caption
    /\ trace w' = trace world_empty_caption
         ++ List.map (EvOpenRead (text_file "a.txt"))
              (firstn k process_all_captions.encodings).
Proof.
  apply (unreadable_caption_places_nothing (image_file "a.jpg")
           (text_file "a.txt") (process_all_captions.mkCounters [] 0 0)
           world_empty_caption).
  right. vm_compute. reflexivity.
Defined.

Lemma process_pair_keeps_total (pair : path * path)
    (st : process_all_captions.counters) :
  length (process_all_captions.results st) = process_all_captions.success st ->
  yields (process_all_captions.process_pair pair st)
    (fun st' => length (process_all_captions.results st')
                = process_all_captions.success st').
Proof.
  intros G w st' H.
  destruct (process_pair_step pair st w) as (st1 & w1 & E & _ & C).
  rewrite E in H. simpl in H. inversion H; subst st1. clear H E.
  destruct C as [(caption & C)|C]; subst st'; simpl.
  - rewrite length_app. simpl. lia.
  - exact G.
Qed.

(** The three lines of the report of [process_all_captions]: the total it
    prints is always the number of successes, and successes and failures add
    up to the number of pairs. *)
Theorem total_line_equals_success (matches : list (path * path)) (w : world) :
  exists st w',
    process_all_captions.processing_pass matches w = (Ok st, w')
    /\ length (process_all_captions.results st) = process_all_captions.success st
    /\ stdout w' = stdout w ++
         [PrSuccess (process_all_captions.success st);
          PrFailed (length matches - process_all_captions.success st);
          PrTotal (process_all_captions.success st)].
Proof.
  destruct (processing_pass_report matches w) as (st & w' & E & C & O).
  exists st, w'. split; [exact E|].
  assert (G : length (process_all_captions.results st)
              = process_all_captions.success st).
  { assert (Y : yields (process_all_captions.processing_pass matches)
                  (fun st' => length (process_all_captions.results st')
                              = process_all_captions.success st')).
    { unfold process_all_captions.processing_pass.
      eapply yields_bind_val.
      - apply yields_for_each.
        + intros pair s. apply process_pair_keeps_total.
        + reflexivity.
      - intros s G. apply yields_bind. intros _. apply yields_ret, G. }
    apply (Y w st). rewrite E. reflexivity. }
  split; [exact G|]. rewrite O, G.
  replace (length matches - process_all_captions.success st)%nat
    with (process_all_captions.failed st) by lia.
  reflexivity.
Qed.

(** ** The rows of the CSV files *)

Lemma dict_get_key (c : str) (r : record) :
  In c (List.map fst r) -> dict_get c r <> None.
Proof.
  induction r as [|[k v] r IH]; simpl; [intros []|].
  intros H. destruct (str_eqb c k) eqn:E; [discriminate|].
  destruct H as [H|H]; [|exact (IH H)].
  subst k. unfold str_eqb in E.
  destruct (list_eq_dec N.eq_dec c c); [discriminate | congruence].
Qed.

Lemma frame_filled (ks : list str) (rs : list record) (p : path) :
  fold_left add_key ks [] = ks ->
  rs <> [] ->
  records_with ks rs ->
  csv_rows_filled (EvToCsv p (columns (DataFrame_of rs)) (rows (DataFrame_of rs))).
Proof.
  intros Hks Hne H. unfold DataFrame_of. cbn [columns rows csv_rows_filled].
  rewrite (frame_columns_uniform ks rs Hks Hne H). split.
  - destruct rs; [contradiction | discriminate].
  - intros row Hin. apply in_map_iff in Hin. destruct Hin as (r & Er & Hr).
    subst row. split; [apply length_map|].
    intros cell Hc. apply in_map_iff in Hc. destruct Hc as (c & Ec & Hc).
    subst cell. apply dict_get_key.
    unfold records_with in H. rewrite Forall_forall in H.
    rewrite (H r Hr). exact Hc.
Qed.

Section CleanAndPrepareRows.

Import clean_and_prepare_captions.

Variable upper : char -> str.
Variable csv_bytes : DataFrame -> bytes.

Let ok := csv_rows_filled.

Lemma filled_matching_pass (caption_files : list path) :
  appends ok (matching_pass upper caption_files).
Proof.
  unfold matching_pass, report.
  apply appends_bind.
  - apply appends_for_each. intros f st. unfold process_caption_file. appends_go.
  - intros st. appends_go.
Qed.

Lemma filled_save_row (row : record) (n : nat) : appends ok (save_row row n).
Proof. unfold save_row. appends_go. Qed.

Lemma clean_and_prepare_rows : appends ok (main upper csv_bytes).
Proof.
  unfold main.
  apply appends_bind; [apply appends_exists|]. intros [|]; simpl; [|apply appends_ret].
  apply appends_bind; [apply appends_exists|]. intros [|]; simpl; [|apply appends_ret].
  apply appends_bind; [apply appends_glob|]. intros [|f files]; [apply appends_ret|].
  eapply appends_bind_val;
    [apply filled_matching_pass | apply matching_pass_good|].
  intros st [G1 G2].
  destruct (matched_count st =? 0)%nat eqn:M; [apply appends_say|].
  apply Nat.eqb_neq in M.
  apply appends_bind; [apply appends_makedirs|]. intros _.
  apply appends_bind.
  { apply appends_to_csv.
    apply frame_filled with (ks := columns_clean_and_prepare);
      [reflexivity | | exact G2].
    intros E. rewrite E in G1. simpl in G1. lia. }
  intros _.
  apply appends_bind; [apply appends_makedirs|]. intros _.
  apply appends_bind;
    [apply appends_for_each; intros; apply filled_save_row|].
  intros n. appends_go.
Qed.

End CleanAndPrepareRows.

Section ProcessAllRows.

Import process_all_captions.

Variable HAS_PANDAS : bool.
Variable csv_bytes : DataFrame -> bytes.

Let ok := csv_rows_filled.

Lemma filled_read_caption_file_with (encs : list encoding) (p : path) :
  appends ok (read_caption_file_with encs p).
Proof. induction encs as [|enc encs IH]; simpl; appends_go. exact IH. Qed.

Lemma filled_processing_pass (matches : list (path * path)) :
  appends ok (processing_pass matches).
Proof.
  unfold processing_pass, report.
  apply appends_bind.
  - apply appends_for_each. intros [img cap] st.
    unfold process_pair, read_caption_file.
    apply appends_try_except; [|intros; apply appends_ret].
    apply appends_bind; [apply filled_read_caption_file_with|].
    intros r. appends_go.
  - intros st. appends_go.
Qed.

Lemma filled_first_existing (ps : list path) : appends ok (first_existing ps).
Proof. induction ps as [|p ps IH]; simpl; appends_go. exact IH. Qed.

Lemma process_all_rows : appends ok (main HAS_PANDAS csv_bytes).
Proof.
  unfold main.
  apply appends_bind; [apply appends_input|]. intros answer.
  apply appends_bind.
  { destruct (strip answer); [apply filled_first_existing | apply appends_ret]. }
  intros [caption_path|]; [|apply appends_ret].
  apply appends_bind; [apply appends_exists|].
  intros [|]; cbn [negb]; [|apply appends_ret].
  apply appends_bind; [unfold find_caption_files; appends_go|].
  intros [|f files]; [apply appends_ret|].
  apply appends_bind; [apply appends_exists|]. intros default_present.
  apply appends_bind; [destruct default_present; appends_go|]. intros img_path.
  apply appends_bind; [unfold find_image_files; appends_go|].
  intros [|i images]; [apply appends_ret|].
  destruct (match_images_captions (f :: files) (i :: images)) as [|m matches];
    [appends_go|].
  apply appends_bind; [apply appends_makedirs|]. intros _.
  eapply appends_bind_val;
    [apply filled_processing_pass | apply processing_pass_good|].
  intros st G.
  destruct (results st) as [|r rs] eqn:R; [apply appends_ret|].
  apply appends_bind; [|intros; apply appends_ret].
  destruct HAS_PANDAS; [|apply appends_ret].
  apply appends_bind; [apply appends_makedirs|]. intros _.
  apply appends_bind; [|intros; apply appends_say].
  apply appends_to_csv.
  apply frame_filled with (ks := columns_process_all);
    [reflexivity | discriminate | ].
  unfold good_results in G. rewrite R in G. exact G.
Qed.

End ProcessAllRows.

(** Whatever the files hold, a CSV file written by
    [clean_and_prepare_captions] or by [process_all_captions] has at least
    one row, every row has one cell per column, and no cell is missing: both
    scripts stop before writing when no pair was kept. *)
Theorem csv_files_have_filled_rows :
  (forall upper csv_bytes w, exists new,
      trace (snd (clean_and_prepare_captions.main upper csv_bytes w))
      = trace w ++ new
      /\ Forall csv_rows_filled new)
  /\ (forall HAS_PANDAS csv_bytes w, exists new,
      trace (snd (process_all_captions.main HAS_PANDAS csv_bytes w))
      = trace w ++ new
      /\ Forall csv_rows_filled new).
Proof.
  split.
  - intros upper csv_bytes w. apply (clean_and_prepare_rows upper csv_bytes w).
  - intros HAS_PANDAS csv_bytes w. apply (process_all_rows HAS_PANDAS csv_bytes w).
Qed.

(** ** A run that keeps no record *)

(** When the first loop of [clean_and_prepare_captions] keeps no record, the
    run ends with the file system as it found it: no CSV file, no training
    directory, no link and no caption file are made. *)
Theorem no_record_no_output
    (upper : char -> str) (csv_bytes : DataFrame -> bytes) (w w1 : world)
    (st : clean_and_prepare_captions.counters) :
  clean_and_prepare_captions.matching_pass upper
    (glob_suffix w clean_and_prepare_captions.TEXT_DIR (lit ".txt")) w
  = (Ok st, w1) ->
  clean_and_prepare_captions.matched_count st = 0%nat ->
  entries (snd (clean_and_prepare_captions.main upper csv_bytes w)) = entries w.
Proof.
  intros P M.
  assert (En : entries w1 = entries w).
  { revert P. unfold clean_and_prepare_captions.matching_pass, bind.
    destruct (matching_loop upper
                (glob_suffix w clean_and_prepare_captions.TEXT_DIR (lit ".txt"))
                (clean_and_prepare_captions.mkCounters [] 0 0) w)
      as (st' & w' & E & _ & En & _).
    rewrite E. unfold clean_and_prepare_captions.report, bind, say, ret.
    destruct (0 <? clean_and_prepare_captions.skipped_count st')%nat;
      intros H; inversion H; subst; exact En. }
  unfold clean_and_prepare_captions.main, bind, exists_, glob.
  destruct (path_exists w clean_and_prepare_captions.TEXT_DIR);
    cbn [negb]; [|reflexivity].
  destruct (path_exists w clean_and_prepare_captions.IMAGE_DIR);
    cbn [negb]; [|reflexivity].
  revert P.
  destruct (glob_suffix w clean_and_prepare_captions.TEXT_DIR (lit ".txt"))
    as [|f files]; [reflexivity|].
  intros P. rewrite P, M. exact En.
Qed.

Lemma no_record_no_output_witness :
  entries (snd (clean_and_prepare_captions.main upper_ascii example_csv_bytes
                  world_unmatched_caption))
  = entries world_unmatched_caption.
Proof.
  apply (no_record_no_output upper_ascii example_csv_bytes
           world_unmatched_caption
           (print (PrSkipped 1) (print (PrMatched 0) world_unmatched_caption))
           (clean_and_prepare_captions.mkCounters [] 0 1));
    vm_compute; reflexivity.
Defined.

(** ** What [read_caption_file] returns *)

Lemma strip_bom_cases (b : list N) :
  strip_bom b = b \/ exists r, b = 239 :: 187 :: 191 :: r /\ strip_bom b = r.
Proof.
  destruct b as [|b0 l]; [left; reflexivity|].
  destruct (N.eq_dec b0 239) as [E0|N0].
  2:{ left. destruct b0 as [|q]; [reflexivity|].
      repeat (destruct q as [q|q|]; try reflexivity). congruence. }
  subst b0. destruct l as [|b1 l]; [left; reflexivity|].
  destruct (N.eq_dec b1 187) as [E1|N1].
  2:{ left. destruct b1 as [|q]; [reflexivity|].
      repeat (destruct q as [q|q|]; try reflexivity). congruence. }
  subst b1. destruct l as [|b2 l]; [left; reflexivity|].
  destruct (N.eq_dec b2 191) as [E2|N2].
  2:{ left. destruct b2 as [|q]; [reflexivity|].
      repeat (destruct q as [q|q|]; try reflexivity). congruence. }
  subst b2. right. exists l. split; reflexivity.
Qed.

Lemma utf8_decode_bom (b : list N) :
  utf8_decode b = None -> utf8_decode (strip_bom b) = None.
Proof.
  intros H. destruct (strip_bom_cases b) as [E|(r & Eb & Er)].
  - rewrite E. exact H.
  - rewrite Er. subst b.
    change (utf8_decode (239 :: 187 :: 191 :: r))
      with (option_map (cons 65279) (utf8_decode r)) in H.
    destruct (utf8_decode r); [discriminate | reflexivity].
Qed.

Lemma read_text_eq (p : path) (enc : encoding) (w : world) :
  read_text p enc w
  = (match stat (entries w) p with
     | Some (File data) =>
         match decode enc data with
         | Some s => Ok (universal_newlines s)
         | None => Raise UnicodeDecodeError
         end
     | _ => Raise OSError
     end, record_event (EvOpenRead p enc) w).
Proof.
  rewrite <- read_text_result, <- read_text_world.
  destruct (read_text p enc w); reflexivity.
Qed.

(** [read_caption_file] in full.  On a regular file it returns the UTF-8
    text after one attempt when the bytes are valid UTF-8, a byte order mark
    staying in the text as U+FEFF, and the Latin-1 text after three attempts
    otherwise: [utf-8-sig], [cp1252] and [iso-8859-1] are never the encoding
    that succeeds.  On anything else it returns [None] after all five
    attempts.  The file system stays as it was. *)
Theorem read_caption_file_outcome (p : path) (w : world) :
  exists w',
    process_all_captions.read_caption_file p w
    = (Ok (match stat (entries w) p with
           | Some (File data) =>
               let b := List.map Byte.to_N data in
               Some (universal_newlines
                       (match utf8_decode b with Some s => s | None => b end))
           | _ => None
           end), w')
    /\ entries w' = entries w
    /\ trace w' = trace w ++ List.map (EvOpenRead p)
         (match stat (entries w) p with
          | Some (File data) =>
              match utf8_decode (List.map Byte.to_N data) with
              | Some _ => [utf_8]
              | None => [utf_8; utf_8_sig; latin_1]
              end
          | _ => process_all_captions.encodings
          end).
Proof.
  unfold process_all_captions.read_caption_file, process_all_captions.encodings.
  cbn [process_all_captions.read_caption_file_with].
  unfold try_except, bind, ret.
  destruct (stat (entries w) p) as [[data| |t]|] eqn:S.
  - rewrite read_text_eq, S. cbn [decode].
    destruct (utf8_decode (List.map Byte.to_N data)) as [s|] eqn:U.
    + eexists. split; [reflexivity|]. split; reflexivity.
    + cbv beta iota. rewrite read_text_eq. cbn [entries record_event].
      rewrite S. cbn [decode]. rewrite (utf8_decode_bom _ U). cbv beta iota.
      rewrite read_text_eq. cbn [entries record_event]. rewrite S. cbn [decode].
      eexists. split; [reflexivity|]. split; [reflexivity|].
      cbn [trace record_event List.map]. rewrite <- !app_assoc. reflexivity.
  - repeat (rewrite read_text_eq; cbn [entries record_event]; rewrite S;
            cbv beta iota).
    eexists. split; [reflexivity|]. split; [reflexivity|].
    cbn [trace record_event List.map]. rewrite <- !app_assoc. reflexivity.
  - repeat (rewrite read_text_eq; cbn [entries record_event]; rewrite S;
            cbv beta iota).
    eexists. split; [reflexivity|]. split; [reflexivity|].
    cbn [trace record_event List.map]. rewrite <- !app_assoc. reflexivity.
  - repeat (rewrite read_text_eq; cbn [entries record_event]; rewrite S;
            cbv beta iota).
    eexists. split; [reflexivity|]. split; [reflexivity|].
    cbn [trace record_event List.map]. rewrite <- !app_assoc. reflexivity.
Qed.

(** ** White space in [process_all_captions.clean_caption] *)

Lemma star_match_spaces (s : str) :
  star_match isspace Some s = Some (drop_while isspace s).
Proof.
  induction s as [|c s IH]; simpl; [reflexivity|].
  destruct (isspace c); [rewrite IH|]; reflexivity.
Qed.

Lemma take_drop_while (p : char -> bool) (s : str) :
  take_while p s ++ drop_while p s = s.
Proof.
  induction s as [|c s IH]; simpl; [reflexivity|].
  destruct (p c); simpl; [rewrite IH|]; reflexivity.
Qed.

Lemma length_run (c : char) (s : str) :
  (length (c :: s) - length (drop_while isspace s)
   = S (length (take_while isspace s)))%nat.
Proof.
  rewrite <- (take_drop_while isspace s) at 1.
  cbn [length]. rewrite length_app. lia.
Qed.

Lemma sub_from_0 (r : regex) (repl : str) (c : char) (s : str) :
  sub_from r repl 0 (c :: s)
  = match rmatch r Some (c :: s) with
    | Some rest =>
        match (length (c :: s) - length rest)%nat with
        | O => c :: sub_from r repl 0 s
        | S n => repl ++ sub_from r repl n s
        end
    | None => c :: sub_from r repl 0 s
    end.
Proof. reflexivity. Qed.

Lemma rmatch_spaces (c : char) (s : str) :
  rmatch re_spaces Some (c :: s)
  = if isspace c then Some (drop_while isspace s) else None.
Proof.
  unfold re_spaces, RPlus. cbn [rmatch].
  destruct (isspace c); [apply star_match_spaces | reflexivity].
Qed.

Lemma sub_from_collapse (s : str) :
  sub_from re_spaces [32] 0 s = collapse false s
  /\ sub_from re_spaces [32] (length (take_while isspace s)) s = collapse true s.
Proof.
  induction s as [|c s [IH0 IH1]]; [split; reflexivity|].
  rewrite sub_from_0, rmatch_spaces. cbn [take_while collapse].
  destruct (isspace c) eqn:E.
  - rewrite length_run. cbn [length sub_from]. rewrite IH1. split; reflexivity.
  - cbn [length]. rewrite sub_from_0, rmatch_spaces, E, IH0. split; reflexivity.
Qed.

Lemma re_sub_collapse (s : str) :
  re_sub re_spaces (lit " ") s = collapse false s.
Proof. apply (sub_from_collapse s). Qed.

Lemma clean_caption_eq (text : str) :
  process_all_captions.clean_caption text
  = strip (let t := collapse false (strip text) in
           if (300 <? length t)%nat then firstn 300 t else t).
Proof.
  unfold process_all_captions.clean_caption. rewrite re_sub_collapse.
  destruct text; reflexivity.
Qed.

(** *** Single spaces *)

Lemma spaced_collapse (b : bool) (s : str) : spaced b (collapse b s) = true.
Proof.
  revert b; induction s as [|c s IH]; intros b; simpl; [reflexivity|].
  destruct (isspace c) eqn:E.
  - destruct b; [apply IH|]. simpl. apply IH.
  - simpl. rewrite E. apply IH.
Qed.

Lemma spaced_app_l (b : bool) (x y : str) :
  spaced b (x ++ y) = true -> spaced b x = true.
Proof.
  revert b; induction x as [|c x IH]; intros b; simpl; [reflexivity|].
  destruct (isspace c); [|apply IH].
  intros H. apply andb_true_iff in H as [H1 H2].
  rewrite H1. apply IH, H2.
Qed.

Lemma spaced_firstn (b : bool) (n : nat) (x : str) :
  spaced b x = true -> spaced b (firstn n x) = true.
Proof.
  intros H. apply spaced_app_l with (y := skipn n x).
  rewrite firstn_skipn. exact H.
Qed.

Lemma spaced_drop_while (b b' : bool) (x : str) :
  spaced b x = true -> spaced b' (drop_while isspace x) = true.
Proof.
  revert b; induction x as [|c x IH]; intros b; simpl; [reflexivity|].
  destruct (isspace c) eqn:E.
  - intros H. apply andb_true_iff in H as [_ H]. exact (IH _ H).
  - intros H. simpl. rewrite E. exact H.
Qed.

Lemma rstrip_by_spaces (p : char -> bool) (s : str) :
  exists t, s = rstrip_by p s ++ t /\ forallb p t = true.
Proof.
  unfold rstrip_by. destruct (drop_while_suffix p (rev s)) as [a [E F]].
  exists (rev a). split.
  - rewrite <- rev_app_distr, <- E, rev_involutive. reflexivity.
  - rewrite forallb_rev. exact F.
Qed.

Lemma spaced_strip (b : bool) (x : str) :
  spaced b x = true -> spaced false (strip x) = true.
Proof.
  intros H. unfold strip, strip_by, lstrip_by.
  destruct (rstrip_by_spaces isspace (drop_while isspace x)) as (t & E & _).
  apply spaced_app_l with (y := t). rewrite <- E.
  exact (spaced_drop_while b false x H).
Qed.

Lemma collapse_spaced (b : bool) (x : str) :
  spaced b x = true -> collapse b x = x.
Proof.
  revert b; induction x as [|c x IH]; intros b; simpl; [reflexivity|].
  destruct (isspace c).
  - intros H. apply andb_true_iff in H as [H1 H2].
    apply andb_true_iff in H1 as [Hc Hb].
    apply N.eqb_eq in Hc. apply negb_true_iff in Hb. subst b c.
    rewrite (IH _ H2). reflexivity.
  - intros H. rewrite (IH _ H). reflexivity.
Qed.

(** *** Clean edges *)

Lemma strip_starts_clean (s : str) : starts_clean (strip s) = true.
Proof.
  unfold strip, strip_by, lstrip_by.
  destruct (rstrip_by_spaces isspace (drop_while isspace s)) as (t & E & _).
  destruct (rstrip_by isspace (drop_while isspace s)) as [|c r]; [reflexivity|].
  simpl. rewrite (drop_while_head isspace s c (r ++ t) E). reflexivity.
Qed.

Lemma strip_ends_clean (s : str) : ends_inword true (strip s) = true.
Proof.
  unfold strip, strip_by.
  pose proof (rstrip_by_last isspace (lstrip_by isspace s)) as H.
  unfold ends_inword.
  destruct (rev (rstrip_by isspace (lstrip_by isspace s))); [reflexivity|].
  rewrite H. reflexivity.
Qed.

Lemma strip_fixed (x : str) :
  starts_clean x = true -> ends_inword true x = true -> strip x = x.
Proof.
  intros H1 H2. unfold strip, strip_by, lstrip_by, rstrip_by.
  assert (E : drop_while isspace x = x).
  { destruct x as [|c x]; [reflexivity|]. simpl in *.
    apply negb_true_iff in H1. rewrite H1. reflexivity. }
  rewrite E. unfold ends_inword in H2.
  destruct (rev x) as [|d r] eqn:R.
  - apply (f_equal (@rev char)) in R. rewrite rev_involutive in R. exact (eq_sym R).
  - simpl. apply negb_true_iff in H2. rewrite H2.
    rewrite <- R. apply rev_involutive.
Qed.

Lemma ends_inword_nonempty (b : bool) (x : str) :
  ends_inword false x = true -> ends_inword b x = true.
Proof.
  unfold ends_inword. destruct (rev x); [discriminate | auto].
Qed.

Lemma collapse_ends_clean (t : str) :
  forall b b', ends_inword b' t = true -> ends_inword b' (collapse b t) = true.
Proof.
  induction t as [|c t IH]; intros b b' H; [exact H|].
  rewrite ends_inword_cons in H. simpl.
  destruct (isspace c) eqn:E; simpl in H.
  - destruct b.
    + apply ends_inword_nonempty, IH, H.
    + rewrite ends_inword_cons. change (isspace 32) with true. apply IH, H.
  - rewrite ends_inword_cons, E. apply IH. exact H.
Qed.

Lemma collapse_starts_clean (t : str) :
  starts_clean t = true -> starts_clean (collapse false t) = true.
Proof.
  destruct t as [|c t]; [reflexivity|]. simpl. intros H.
  apply negb_true_iff in H. rewrite H. simpl. rewrite H. reflexivity.
Qed.

(** *** Collapsing and splitting *)

Lemma split_aux_nonempty (s : str) :
  forall cur, nonempty cur || ends_inword false s = true -> split_aux cur s <> [].
Proof.
  induction s as [|c s IH]; intros cur H.
  - change (ends_inword false []) with false in H. rewrite orb_false_r in H.
    destruct cur; [discriminate | simpl; discriminate].
  - rewrite ends_inword_cons in H. simpl.
    destruct (isspace c); simpl in H.
    + destruct cur; [apply IH; exact H | discriminate].
    + apply IH. reflexivity.
Qed.

Lemma collapse_split (s : str) :
  (forall cur, cur <> [] -> ends_inword true s = true ->
     rev cur ++ collapse false s = join [32] (split_aux cur s))
  /\ (ends_inword false s = true ->
        collapse true s = join [32] (split_aux [] s)).
Proof.
  induction s as [|c s [IH1 IH2]]; split.
  - intros cur Hc _. simpl. rewrite app_nil_r.
    destruct cur; [contradiction | reflexivity].
  - discriminate.
  - intros cur Hc H. rewrite ends_inword_cons in H. simpl.
    destruct (isspace c) eqn:E; simpl in H.
    + destruct cur as [|x cur]; [contradiction|].
      pose proof (split_aux_nonempty s [] H) as N.
      rewrite (IH2 H).
      destruct (split_aux [] s) as [|w ws]; [contradiction | reflexivity].
    + rewrite <- (IH1 (c :: cur)) by (discriminate || exact H).
      simpl. rewrite <- app_assoc. reflexivity.
  - intros H. rewrite ends_inword_cons in H. simpl.
    destruct (isspace c) eqn:E; simpl in H.
    + apply IH2, H.
    + rewrite <- (IH1 [c]) by (discriminate || exact H). reflexivity.
Qed.

Lemma collapse_join (s : str) :
  starts_clean s = true -> ends_inword true s = true ->
  collapse false s = join [32] (split s).
Proof.
  destruct s as [|c s]; [reflexivity|]. simpl. intros H1 H2.
  apply negb_true_iff in H1. rewrite ends_inword_cons, H1 in H2.
  unfold split. simpl. rewrite H1.
  rewrite <- (proj1 (collapse_split s) [c]) by (discriminate || exact H2).
  reflexivity.
Qed.

Lemma split_drop_spaces (s : str) :
  split_aux [] (drop_while isspace s) = split_aux [] s.
Proof.
  induction s as [|c s IH]; simpl; [reflexivity|].
  destruct (isspace c) eqn:E; [exact IH|]. simpl. rewrite E. reflexivity.
Qed.

Lemma split_aux_spaces (t : str) :
  forallb isspace t = true -> forall cur, split_aux cur t = split_aux cur [].
Proof.
  induction t as [|c t IH]; intros H cur; [reflexivity|].
  simpl in H. apply andb_true_iff in H as [Hc Ht]. simpl. rewrite Hc.
  destruct cur; rewrite (IH Ht); reflexivity.
Qed.

Lemma split_aux_app_spaces (s t : str) :
  forallb isspace t = true ->
  forall cur, split_aux cur (s ++ t) = split_aux cur s.
Proof.
  intros Ht. induction s as [|c s IH]; intros cur.
  - apply split_aux_spaces, Ht.
  - simpl. destruct (isspace c); [destruct cur|]; rewrite IH; reflexivity.
Qed.

Lemma split_strip (s : str) : split (strip s) = split s.
Proof.
  unfold split, strip, strip_by, lstrip_by.
  destruct (rstrip_by_spaces isspace (drop_while isspace s)) as (t & E & F).
  rewrite <- (split_drop_spaces s). rewrite E at 2.
  rewrite split_aux_app_spaces by exact F. reflexivity.
Qed.

(** What every result of [clean_caption] is like. *)
Lemma clean_caption_result (text : str) :
  let r := process_all_captions.clean_caption text in
  (length r <= 300)%nat /\ starts_clean r = true
  /\ ends_inword true r = true /\ spaced false r = true.
Proof.
  cbv zeta. rewrite clean_caption_eq. cbv zeta.
  set (t := collapse false (strip text)).
  assert (S : spaced false t = true) by apply spaced_collapse.
  split; [|split; [apply strip_starts_clean | split; [apply strip_ends_clean|]]].
  - etransitivity; [apply length_strip|].
    destruct (300 <? length t)%nat eqn:L.
    + apply firstn_le_length.
    + apply Nat.ltb_ge in L. exact L.
  - destruct (300 <? length t)%nat.
    + apply spaced_strip with (b := false), spaced_firstn, S.
    + apply spaced_strip with (b := false), S.
Qed.

(** When the words of the text, joined by single spaces, fit in 300
    characters, [process_all_captions.clean_caption] returns exactly that:
    [' '.join(text.split())]. *)
Theorem clean_caption_joins_words (text : str) :
  (length (join (lit " ") (split text)) <= 300)%nat ->
  process_all_captions.clean_caption text = join (lit " ") (split text).
Proof.
  change (lit " ") with [32]. intros L.
  rewrite clean_caption_eq. cbv zeta.
  assert (E : collapse false (strip text) = join [32] (split text)).
  { rewrite collapse_join, split_strip;
      [reflexivity | apply strip_starts_clean | apply strip_ends_clean]. }
  apply Nat.ltb_ge in L. rewrite E, L, <- E.
  apply strip_fixed.
  - apply collapse_starts_clean, strip_starts_clean.
  - apply collapse_ends_clean, strip_ends_clean.
Qed.

Lemma clean_caption_joins_words_witness :
  process_all_captions.clean_caption
    (lit "  A man" ++ [9; 10] ++ lit "with  short hair. ")
  = join (lit " ")
      (split (lit "  A man" ++ [9; 10] ++ lit "with  short hair. ")).
Proof.
  apply (clean_caption_joins_words
           (lit "  A man" ++ [9; 10] ++ lit "with  short hair. ")).
  apply Nat.leb_le. vm_compute. reflexivity.
Defined.

(** Every result of [process_all_captions.clean_caption] is single-spaced:
    it equals its own words joined by single spaces, so it has no white
    space at either end, no white space other than the space, and no two
    spaces in a row, also when the text was cut at 300 characters. *)
Theorem clean_caption_single_spaced (text : str) :
  join (lit " ") (split (process_all_captions.clean_caption text))
  = process_all_captions.clean_caption text.
Proof.
  change (lit " ") with [32].
  destruct (clean_caption_result text) as (_ & H1 & H2 & H3).
  rewrite <- collapse_join by assumption.
  apply collapse_spaced, H3.
Qed.

(** [process_all_captions.clean_caption] is idempotent: cleaning a cleaned
    caption changes nothing, also when the first cleaning cut the text at
    300 characters. *)
Theorem clean_caption_idempotent (text : str) :
  process_all_captions.clean_caption (process_all_captions.clean_caption text)
  = process_all_captions.clean_caption text.
Proof.
  destruct (clean_caption_result text) as (L & H1 & H2 & H3).
  set (r := process_all_captions.clean_caption text) in *.
  rewrite clean_caption_eq. cbv zeta.
  rewrite (strip_fixed r H1 H2), (collapse_spaced false r H3).
  apply Nat.ltb_ge in L. rewrite L.
  apply strip_fixed; assumption.
Qed.

Lemma drop_while_all (p : char -> bool) (s : str) :
  drop_while p s = [] <-> forallb p s = true.
Proof.
  induction s as [|c s IH]; simpl; [tauto|].
  destruct (p c); simpl; [exact IH|]. split; discriminate.
Qed.

Lemma strip_empty (s : str) : strip s = [] <-> forallb isspace s = true.
Proof.
  unfold strip, strip_by, lstrip_by, rstrip_by. split.
  - intros H. apply (f_equal (@rev char)) in H.
    rewrite rev_involutive in H. simpl in H.
    apply drop_while_all in H. rewrite forallb_rev in H.
    destruct (drop_while isspace s) as [|c r] eqn:D.
    + apply drop_while_all, D.
    + apply drop_while_head in D. simpl in H. rewrite D in H. discriminate.
  - intros H. apply drop_while_all in H. rewrite H. reflexivity.
Qed.

(** [process_all_captions.clean_caption] returns the empty string exactly
    for a text that is empty or all white space.  [main] tests the text for
    emptiness before it cleans it, so the caption of a file of blanks is
    kept, empty. *)
Theorem clean_caption_empty_iff (text : str) :
  process_all_captions.clean_caption text = [] <-> forallb isspace text = true.
Proof.
  rewrite clean_caption_eq. cbv zeta. rewrite <- strip_empty.
  set (t := strip text).
  assert (C : starts_clean t = true) by apply strip_starts_clean.
  split.
  - intros H. destruct t as [|c t']; [reflexivity|]. exfalso.
    simpl in C. apply negb_true_iff in C.
    apply strip_empty in H.
    assert (F : forall y, forallb isspace (c :: y) = false)
      by (intros y; simpl; rewrite C; reflexivity).
    cbn [collapse] in H. rewrite C in H.
    destruct (300 <? length (c :: collapse false t'))%nat.
    + rewrite firstn_cons, F in H. discriminate.
    + rewrite F in H. discriminate.
  - intros H. rewrite H. reflexivity.
Qed.

(** ** A run of the caption generator *)

Section GeneratorRun.

Import caption_generator_finetuned.

Variable model : Type.
Variable from_pretrained : bool -> outcome model.
Variable describe : model -> bytes -> outcome str.
Variable read_csv : bytes -> outcome attr_frame.
Variable csv_bytes : DataFrame -> bytes.

Lemma load_model_loads (w : world) :
  exists loads,
    trace (snd (load_model model from_pretrained w)) = trace w ++ loads
    /\ entries (snd (load_model model from_pretrained w)) = entries w
    /\ Forall (fun e => exists relaxed, e = EvLoadModel relaxed) loads.
Proof.
  unfold load_model, try_except, call_from_pretrained.
  destruct (from_pretrained false) as [m|e].
  - exists [EvLoadModel false]. repeat split. repeat constructor. eexists; reflexivity.
  - destruct (is_ValueError e).
    + exists [EvLoadModel false; EvLoadModel true]. simpl.
      rewrite <- app_assoc. repeat split.
      repeat constructor; eexists; reflexivity.
    + exists [EvLoadModel false]. repeat split. repeat constructor.
      eexists; reflexivity.
Qed.

Lemma load_attributes_same (w : world) :
  snd (load_attributes read_csv w) = w.
Proof.
  unfold load_attributes, bind, exists_, read_bytes, lift, ret.
  destruct (path_exists w ATTR_PATH); [|reflexivity].
  destruct (stat (entries w) ATTR_PATH) as [[data| |t]|]; reflexivity.
Qed.

(** One turn of the loop: the world stays as it is, and the turn adds the
    record of the image when the name is an image name and nothing
    raises. *)
Lemma caption_image_turn (m : model) (attr_df : attr_frame) (img_name : str)
    (captions : list record) (w : world) :
  snd (caption_image model describe m attr_df img_name captions w) = w
  /\ forall captions',
       fst (caption_image model describe m attr_df img_name captions w)
       = Ok captions' ->
       List.map (dict_get (lit "image")) captions'
       = List.map (dict_get (lit "image")) captions
           ++ (if is_image_name img_name then [Some img_name] else []).
Proof.
  unfold caption_image, bind, read_bytes, lift, ret.
  destruct (is_image_name img_name); cbn [negb].
  2:{ split; [reflexivity|]. intros c H. inversion H. rewrite app_nil_r.
      reflexivity. }
  destruct (stat (entries w) (IMG_DIR ++ [img_name])) as [[data| |t]|];
    try (split; [reflexivity | discriminate]).
  destruct (describe m data) as [base|e];
    [|split; [reflexivity | discriminate]].
  destruct (attributes_of attr_df img_name) as [attrs|e];
    [|split; [reflexivity | discriminate]].
  split; [reflexivity|]. intros c H. inversion H.
  rewrite map_app. reflexivity.
Qed.

Lemma caption_loop (m : model) (attr_df : attr_frame) (names : list str) :
  forall (captions : list record) (w : world),
    snd (for_each names (caption_image model describe m attr_df) captions w) = w
    /\ forall captions',
         fst (for_each names (caption_image model describe m attr_df) captions w)
         = Ok captions' ->
         List.map (dict_get (lit "image")) captions'
         = List.map (dict_get (lit "image")) captions
             ++ List.map Some (filter is_image_name names).
Proof.
  induction names as [|x names IH]; intros captions w.
  - split; [reflexivity|]. intros c H. inversion H. rewrite app_nil_r.
    reflexivity.
  - cbn [for_each]. unfold bind.
    destruct (caption_image_turn m attr_df x captions w) as [W T].
    destruct (caption_image model describe m attr_df x captions w)
      as [[c1|e] w1]; simpl in W; subst w1.
    + destruct (IH c1 w) as [W2 T2]. split; [exact W2|].
      intros c H. rewrite (T2 c H), (T c1 eq_refl), <- app_assoc.
      f_equal. cbn [filter]. destruct (is_image_name x); reflexivity.
    + split; [reflexivity | discriminate].
Qed.

Lemma makedirs_trace (p : path) (w : world) :
  trace (snd (makedirs p w)) = trace w.
Proof. unfold makedirs. io_cases. Qed.

Lemma makedirs_raise (p : path) (w w' : world) (e : exn) :
  makedirs p w = (Raise e, w') -> w' = w.
Proof.
  unfold makedirs. repeat break_match; intros H; inversion H; reflexivity.
Qed.

Lemma to_csv_trace (df : DataFrame) (p : path) (w : world) :
  trace (snd (to_csv csv_bytes df p w))
  = trace w ++ [EvToCsv p (columns df) (rows df)].
Proof. unfold to_csv. io_cases. Qed.

Lemma listdir_entries (w w' : world) (d : path) :
  entries w' = entries w -> listdir w' d = listdir w d.
Proof. unfold listdir. intros E. rewrite E. reflexivity. Qed.

(** A run of the caption generator writes nothing before its CSV file and
    has no handler around the loop: either it raises, with the file system
    as it found it and no CSV file, or it comes to write the CSV file, once,
    with one row for every [.jpg] or [.png] name of the image directory.  A
    single image that cannot be opened or described loses the captions of
    all the others. *)
Theorem generator_all_or_nothing (w : world) :
  let r := script model from_pretrained describe read_csv csv_bytes w in
  exists loads,
    Forall (fun e => exists relaxed, e = EvLoadModel relaxed) loads
    /\ (((exists e, fst r = Raise e)
         /\ trace (snd r) = trace w ++ loads
         /\ entries (snd r) = entries w)
        \/ exists cols rows,
             trace (snd r)
             = trace w ++ loads ++ [EvToCsv OUTPUT_CAPTION_FILE cols rows]
             /\ length rows
                = length (filter is_image_name (listdir w IMG_DIR))).
Proof.
  cbv zeta. unfold script, bind.
  destruct (load_model_loads w) as (loads & Tl & El & Fl).
  exists loads. split; [exact Fl|].
  destruct (load_model model from_pretrained w) as [[m|e] w1];
    cbn [fst snd] in *.
  2:{ left. split; [eexists; reflexivity | split; assumption]. }
  pose proof (load_attributes_same w1) as A.
  destruct (load_attributes read_csv w1) as [[attr_df|e] w2];
    cbn [fst snd] in *; subst w2.
  2:{ left. split; [eexists; reflexivity | split; assumption]. }
  unfold os_listdir.
  destruct (stat (entries w1) IMG_DIR) as [[data| |t]|];
    try (left; split; [eexists; reflexivity | split; assumption]).
  destruct (caption_loop m attr_df (listdir w1 IMG_DIR) [] w1) as [W C].
  destruct (for_each (listdir w1 IMG_DIR)
              (caption_image model describe m attr_df) [] w1)
    as [[captions|e] w3]; cbn [fst snd] in *; subst w3.
  2:{ left. split; [eexists; reflexivity | split; assumption]. }
  pose proof (makedirs_trace (parent OUTPUT_CAPTION_FILE) w1) as M.
  destruct (makedirs (parent OUTPUT_CAPTION_FILE) w1) as [[u|e] w4] eqn:D;
    cbn [fst snd] in *.
  - right. eexists _, _. split.
    + rewrite to_csv_trace, M, Tl, <- app_assoc. reflexivity.
    + unfold DataFrame_of. cbn [rows]. rewrite length_map.
      pose proof (f_equal (@length _) (C captions eq_refl)) as L.
      cbn [List.map app] in L. rewrite !length_map in L.
      rewrite L, (listdir_entries w w1 IMG_DIR El). reflexivity.
  - apply makedirs_raise in D. subst w4.
    left. split; [eexists; reflexivity | split; assumption].
Qed.

End GeneratorRun.


(** ** What [process_all_captions.main] returns *)

Lemma processing_pass_counts (matches : list (path * path)) :
  yields (process_all_captions.processing_pass matches)
    (fun st => length (process_all_captions.results st)
               = process_all_captions.success st).
Proof.
  unfold process_all_captions.processing_pass.
  eapply yields_bind_val.
  - apply yields_for_each.
    + intros pair s. apply process_pair_keeps_total.
    + reflexivity.
  - intros s G. apply yields_bind. intros _. apply yields_ret, G.
Qed.

Lemma first_existing_same (ps : list path) (w : world) :
  snd (process_all_captions.first_existing ps w) = w.
Proof.
  induction ps as [|p ps IH]; [reflexivity|].
  cbn [process_all_captions.first_existing]. unfold bind, exists_.
  destruct (path_exists w p); [reflexivity | exact IH].
Qed.

Lemma find_caption_files_same (d : path) (w : world) :
  snd (process_all_captions.find_caption_files d w) = w.
Proof.
  unfold process_all_captions.find_caption_files, bind, exists_.
  destruct (path_exists w d); reflexivity.
Qed.

Lemma input_stdout (w : world) : stdout (snd (input w)) = stdout w.
Proof. unfold input. destruct (stdin w); reflexivity. Qed.

Lemma makedirs_stdout (p : path) (w : world) :
  stdout (snd (makedirs p w)) = stdout w.
Proof. unfold makedirs. io_cases. Qed.

Lemma to_csv_stdout (csv_bytes : DataFrame -> bytes) (df : DataFrame)
    (p : path) (w : world) :
  stdout (snd (to_csv csv_bytes df p w)) = stdout w.
Proof. unfold to_csv. io_cases. Qed.

(** [process_all_captions.main] returns [True] only after a report that
    counts at least one processed pair; the last line of the console is then
    the note on the CSV file when pandas is there. *)
Theorem main_true_after_success
    (HAS_PANDAS : bool) (csv_bytes : DataFrame -> bytes) (w : world) :
  fst (process_all_captions.main HAS_PANDAS csv_bytes w) = Ok true ->
  exists s f,
    (1 <= s)%nat
    /\ stdout (snd (process_all_captions.main HAS_PANDAS csv_bytes w))
       = stdout w ++ [PrSuccess s; PrFailed f; PrTotal s]
           ++ (if HAS_PANDAS then [PrCsvSaved] else []).
Proof.
  intros H. unfold process_all_captions.main, bind in *.
  pose proof (input_stdout w) as S1.
  destruct (input w) as [[answer|e] w1]; [|discriminate]. cbn [snd] in S1.
  cbv beta match in H |- *.
  assert (S2 : snd (match strip answer with
                    | [] => process_all_captions.first_existing
                              process_all_captions.auto_search
                    | c :: text =>
                        ret (Some (process_all_captions.Path (c :: text)))
                    end w1) = w1).
  { destruct (strip answer); [apply first_existing_same | reflexivity]. }
  destruct (match strip answer with
            | [] => process_all_captions.first_existing
                      process_all_captions.auto_search
            | c :: text => ret (Some (process_all_captions.Path (c :: text)))
            end w1) as [[[caption_path|]|e] w2];
    try discriminate.
  cbn [snd] in S2. subst w2. unfold exists_ at 1 in H. unfold exists_ at 1.
  cbv beta match in H |- *.
  destruct (path_exists w1 caption_path); cbn [negb] in H |- *; [|discriminate].
  pose proof (find_caption_files_same caption_path w1) as S3.
  destruct (process_all_captions.find_caption_files caption_path w1)
    as [[[|cf cfs]|e] w3]; try discriminate. cbn [snd] in S3. subst w3.
  cbv beta match in H |- *.
  unfold exists_ at 1 in H. unfold exists_ at 1. cbv beta match in H |- *.
  assert (S4 : stdout
                 (snd ((if path_exists w1 process_all_captions.default_img_path
                        then ret process_all_captions.default_img_path
                        else fun w0 =>
                               let (o, w') := input w0 in
                               match o with
                               | Ok a =>
                                   ret (process_all_captions.Path (strip a)) w'
                               | Raise e => (Raise e, w')
                               end) w1)) = stdout w1).
  { destruct (path_exists w1 process_all_captions.default_img_path);
      [reflexivity|].
    pose proof (input_stdout w1) as I. destruct (input w1) as [[a|e] w4];
      exact I. }
  destruct ((if path_exists w1 process_all_captions.default_img_path
             then ret process_all_captions.default_img_path
             else fun w0 =>
                    let (o, w') := input w0 in
                    match o with
                    | Ok a => ret (process_all_captions.Path (strip a)) w'
                    | Raise e => (Raise e, w')
                    end) w1) as [[img_path|e] w4]; [|discriminate].
  cbn [snd] in S4. cbv beta match in H |- *.
  destruct (find_image_files_listed img_path w4) as (imgs & E5 & _).
  rewrite E5 in H |- *. clear E5. cbv beta match in H |- *.
  destruct imgs as [|i imgs]; [discriminate|].
  destruct (process_all_captions.match_images_captions (cf :: cfs) (i :: imgs))
    as [|m matches]; [discriminate|].
  pose proof (makedirs_stdout process_all_captions.output_dir w4) as S5.
  destruct (makedirs process_all_captions.output_dir w4) as [[u|e] w5];
    [|discriminate]. cbn [snd] in S5. cbv beta match in H |- *.
  destruct (processing_pass_report (m :: matches) w5) as (st & w6 & E6 & C6 & O6).
  pose proof (processing_pass_counts (m :: matches) w5 st) as G.
  rewrite E6 in H, G |- *. specialize (G eq_refl). cbv beta match in H |- *.
  destruct (process_all_captions.results st) as [|r rs] eqn:R; [discriminate|].
  assert (T : stdout w6
              = stdout w ++ [PrSuccess (process_all_captions.success st);
                             PrFailed (process_all_captions.failed st);
                             PrTotal (process_all_captions.success st)]).
  { rewrite O6, S5, S4, S1, G. reflexivity. }
  assert (L : (1 <= process_all_captions.success st)%nat)
    by (rewrite <- G; simpl; lia).
  exists (process_all_captions.success st), (process_all_captions.failed st).
  split; [exact L|]. destruct HAS_PANDAS.
  - pose proof (makedirs_stdout (parent process_all_captions.csv_file) w6) as S7.
    destruct (makedirs (parent process_all_captions.csv_file) w6)
      as [[u7|e] w7]; [|discriminate]. cbn [snd] in S7.
    cbv beta match in H |- *.
    pose proof (to_csv_stdout csv_bytes (DataFrame_of (r :: rs))
                  process_all_captions.csv_file w7) as S8.
    destruct (to_csv csv_bytes (DataFrame_of (r :: rs))
                process_all_captions.csv_file w7) as [[u8|e] w8];
      [|discriminate]. cbn [snd] in S8.
    cbn. rewrite S8, S7, T, <- app_assoc. reflexivity.
  - cbn [snd ret]. rewrite T. reflexivity.
Qed.

Lemma main_true_after_success_witness :
  exists s f,
    (1 <= s)%nat
    /\ stdout (snd (process_all_captions.main true example_csv_bytes world_asked))
       = stdout world_asked ++ [PrSuccess s; PrFailed f; PrTotal s]
           ++ (if true then [PrCsvSaved] else []).
Proof.
  apply (main_true_after_success true example_csv_bytes world_asked).
  vm_compute. reflexivity.
Defined.
